(** * Fixed-point asset values: [Asset], [Asset.Symbol], [Asset.SymbolCode]

    A shallow embedding of the asset module (the file that declares
    [class Asset], [namespace Asset] with [Symbol] and [SymbolCode], and the
    helpers [toSymbolPrecision], [toSymbolName], [charsToSymbolName],
    [toRawSymbol], [toRawSymbolCode]), together with the properties its
    specification states about it.

    Conventions.
    - A JS string is a list of 16-bit code units ([jsstring], of [char]);
      a string literal is coerced to it.
    - A [BN] (bn.js big number) is a [Z].  [UInt64] and [Int64] wrap a [BN].
    - A thrown [Error] is an [Err e]; every function that can throw returns
      a [result]. *)

From Stdlib Require Import ZArith String Ascii List Bool Lia Floats.
Import ListNotations.
Local Open Scope string_scope.
Local Open Scope list_scope.
Local Open Scope Z_scope.

(** ** Errors and the error monad *)

Inductive error : Set :=
| InvalidAssetString          (* 'Invalid asset string' *)
| InvalidSymbolString         (* 'Invalid symbol string' *)
| PrecisionTooLarge           (* 'Invalid asset symbol, precision too large' *)
| NameNotUppercase            (* 'Invalid asset symbol, name must be uppercase A-Z' *)
| ConversionLoosesPrecision   (* 'Conversion looses precision' *)
| IntegerError                (* thrown by the integer types (Int64, UInt64, BN) *)
| DecodeUnderflow.            (* thrown by ABIDecoder: not enough bytes *)

Inductive result (A : Type) : Type :=
| Ok (a : A)
| Err (e : error).
Arguments Ok {A} a.
Arguments Err {A} e.

Definition bind {A B : Type} (m : result A) (k : A -> result B) : result B :=
  match m with
  | Ok a => k a
  | Err e => Err e
  end.

Notation "x <- m ;; k" := (bind m (fun x => k))
  (at level 61, m at next level, right associativity).

(** ** JavaScript built-ins used by the module *)

(** A character of a JS string is a UTF-16 code unit, here its high and
    its low byte; a character literal has high byte 0. *)
Inductive char : Set := Char (hi lo : ascii).

Definition char_of_byte (b : Byte.byte) : char := Char Ascii.zero (ascii_of_byte b).

Definition byte_of_char (c : char) : option Byte.byte :=
  match c with
  | Char hi lo => if Ascii.eqb hi Ascii.zero then Some (byte_of_ascii lo) else None
  end.

Declare Scope jschar_scope.
Delimit Scope jschar_scope with chr.
Bind Scope jschar_scope with char.
String Notation char char_of_byte byte_of_char : jschar_scope.

Definition jsstring : Type := list char.
Definition lit (s : string) : jsstring := map (Char Ascii.zero) (list_ascii_of_string s).
Coercion lit : string >-> jsstring.

Module JS.

(** The numbers that reach the bit operations of this module are
    integers, [NaN] ([Number.parseInt] of a text without digits,
    [undefined] read past the end of an array) or an infinity
    ([Number.parseInt] of a numeral beyond the largest double). *)
Inductive number : Set :=
| NaN
| Inf (negative : bool)
| Num (z : Z).

(** [ToInt32]: what [|], [<<] and [>>>] do to their operands first. *)
Definition wrap32 (z : Z) : Z := (z + 2 ^ 31) mod 2 ^ 32 - 2 ^ 31.

Definition ToInt32 (n : number) : Z :=
  match n with
  | NaN => 0
  | Inf _ => 0
  | Num z => wrap32 z
  end.

(** [x | y], [x << k], [x >>> k] and [x & y] on int32 operands. *)
Definition bitor (x y : Z) : Z := Z.lor x y.
Definition shl (x k : Z) : Z := wrap32 (Z.shiftl x (k mod 32)).
Definition ushr (x k : Z) : Z := Z.shiftr (x mod 2 ^ 32) (k mod 32).
Definition bitand (x y : Z) : Z := Z.land x y.

(** [s.charCodeAt(i)], the code unit as a number in 0..65535, and
    [String.fromCharCode(n)], which takes [n] modulo 2^16. *)
Definition charCode (c : char) : Z :=
  match c with
  | Char hi lo => 256 * Z.of_N (N_of_ascii hi) + Z.of_N (N_of_ascii lo)
  end.

Definition fromCharCode (n : Z) : char :=
  let u := n mod 2 ^ 16 in
  Char (ascii_of_N (Z.to_N (u / 256))) (ascii_of_N (Z.to_N (u mod 256))).

(** [a === b] on characters. *)
Definition char_eqb (a b : char) : bool :=
  match a, b with
  | Char hi lo, Char hi' lo' => Ascii.eqb hi hi' && Ascii.eqb lo lo'
  end.

(** The character of code 0. *)
Definition nul : char := Char Ascii.zero Ascii.zero.

(** [s.split(sep)] for a separator of one character. *)
Fixpoint split (sep : char) (s : jsstring) : list jsstring :=
  match s with
  | [] => [[]]
  | c :: rest =>
      if char_eqb c sep then [] :: split sep rest
      else match split sep rest with
           | part :: parts => (c :: part) :: parts
           | [] => [[c]]
           end
  end.

(** [s.replace(c, '')]: the first occurrence of [c] is removed. *)
Fixpoint replace_first (c : char) (s : jsstring) : jsstring :=
  match s with
  | [] => []
  | x :: rest => if char_eqb x c then rest else x :: replace_first c rest
  end.

(** [array[i]] of an array of numbers; [undefined] past the end, which
    the bit operations read as [NaN]. *)
Definition index (a : list number) (i : nat) : number := nth i a NaN.

(** Decimal digits. *)
Definition digit_char (d : Z) : char := fromCharCode (48 + d).

Definition digit_value (c : char) : option Z :=
  let n := charCode c in
  if (48 <=? n) && (n <=? 57) then Some (n - 48) else None.

Fixpoint decimal_loop (fuel : nat) (n : Z) (acc : jsstring) : jsstring :=
  match fuel with
  | O => acc
  | S fuel' =>
      let acc' := digit_char (n mod 10) :: acc in
      if n <? 10 then acc' else decimal_loop fuel' (n / 10) acc'
  end.

(** The decimal numeral of [n >= 0]; [n] has at most [log2 n + 1]
    decimal digits. *)
Definition decimal (n : Z) : jsstring :=
  decimal_loop (S (Z.to_nat (Z.log2 n))) n [].

(** [`${n}`] / [n.toString()] for the numbers above; an integer is
    printed in full, as JavaScript prints one below 10^21. *)
Definition Number_toString (n : number) : jsstring :=
  match n with
  | NaN => lit "NaN"
  | Inf negative => if negative then lit "-Infinity" else lit "Infinity"
  | Num z => if z <? 0 then "-"%chr :: decimal (- z) else decimal z
  end.

Fixpoint parse_digits (s : jsstring) (acc : Z) : option Z :=
  match s with
  | [] => Some acc
  | c :: rest =>
      match digit_value c with
      | Some d => parse_digits rest (10 * acc + d)
      | None => None
      end
  end.

(** White space and line terminators, as [Number.parseInt] skips them:
    TAB, LF, VT, FF, CR, SP, NBSP, the other space separators of Unicode,
    LS, PS and the byte order mark. *)
Definition is_space (c : char) : bool :=
  let n := charCode c in
  ((9 <=? n) && (n <=? 13)) || (n =? 32) || (n =? 160)
  || (n =? 0x1680) || ((0x2000 <=? n) && (n <=? 0x200a))
  || (n =? 0x2028) || (n =? 0x2029) || (n =? 0x202f) || (n =? 0x205f)
  || (n =? 0x3000) || (n =? 0xfeff).

Fixpoint skip_spaces (s : jsstring) : jsstring :=
  match s with
  | c :: rest => if is_space c then skip_spaces rest else s
  | [] => []
  end.

Definition hex_value (c : char) : option Z :=
  let n := charCode c in
  if (48 <=? n) && (n <=? 57) then Some (n - 48)
  else if (97 <=? n) && (n <=? 102) then Some (n - 87)
  else if (65 <=? n) && (n <=? 70) then Some (n - 55)
  else None.

(** The value of the longest prefix of digits, and whether it is non-empty. *)
Fixpoint digit_prefix (value_of : char -> option Z) (radix : Z)
         (s : jsstring) (acc : Z) (seen : bool) : option Z :=
  match s with
  | c :: rest =>
      match value_of c with
      | Some d => digit_prefix value_of radix rest (radix * acc + d) true
      | None => if seen then Some acc else None
      end
  | [] => if seen then Some acc else None
  end.

Definition parse_magnitude (s : jsstring) : option Z :=
  match s with
  | "0"%chr :: x :: rest =>
      if char_eqb x "x" || char_eqb x "X"
      then digit_prefix hex_value 16 rest 0 false
      else digit_prefix digit_value 10 s 0 false
  | _ => digit_prefix digit_value 10 s 0 false
  end.

(** The double nearest to the integer [m >= 0], ties to even: an
    integer up to 2^53 is a double; of a larger one the 53 leading bits are
    kept and the rest is rounded.  [None] beyond the largest double. *)
Definition nearest_double (m : Z) : option Z :=
  let e := Z.log2 m - 52 in
  if e <=? 0 then Some m
  else
    let q := m / 2 ^ e in
    let r := m mod 2 ^ e in
    let half := 2 ^ (e - 1) in
    let q := if (half <? r) || ((r =? half) && Z.odd q) then q + 1 else q in
    if 2 ^ 1024 <=? q * 2 ^ e then None else Some (q * 2 ^ e).

(** [Number.parseInt(s)] with no radix: leading white space is skipped,
    a sign is read, [0x]/[0X] selects radix 16, and the longest prefix of
    digits is the value, as the nearest double; [NaN] when that prefix is
    empty. *)
Definition parseInt (s : jsstring) : number :=
  let s := skip_spaces s in
  let '(negative, s) :=
    match s with
    | "-"%chr :: rest => (true, rest)
    | "+"%chr :: rest => (false, rest)
    | _ => (false, s)
    end in
  match parse_magnitude s with
  | Some m =>
      match nearest_double m with
      | Some d => Num (if negative then - d else d)
      | None => Inf negative
      end
  | None => NaN
  end.

End JS.

(** ** bn.js *)

Module BN.

(** A big number; bn.js keeps a sign and 26-bit words, least significant
    first. *)
Definition t : Type := Z.

(** [l[j] = x] within the bounds of [l]. *)
Fixpoint set_nth (j : nat) (x : Z) (l : list Z) : list Z :=
  match l, j with
  | [], _ => []
  | _ :: l', O => x :: l'
  | y :: l', S j' => y :: set_nth j' x l'
  end.

(** The number that 26-bit words denote, least significant word first. *)
Fixpoint words_value (words : list Z) : Z :=
  match words with
  | [] => 0
  | w :: rest => w + 2 ^ 26 * words_value rest
  end.

(** The loop of [_initArray] for [endian === 'le']:
<<
    for (i = 0, j = 0; i < number.length; i += 3) {
      w = number[i] | (number[i + 1] << 8) | (number[i + 2] << 16);
      this.words[j] |= (w << off) & 0x3ffffff;
      this.words[j + 1] = (w >>> (26 - off)) & 0x3ffffff;
      off += 24;
      if (off >= 26) { off -= 26; j++; }
    }
>>
    [count] is the number of iterations that remain. *)
Fixpoint initArray_le_loop (count : nat) (number : list JS.number)
         (i j : nat) (off : Z) (words : list Z) : list Z :=
  match count with
  | O => words
  | S count' =>
      let w :=
        JS.bitor
          (JS.bitor (JS.ToInt32 (JS.index number i))
                    (JS.shl (JS.ToInt32 (JS.index number (i + 1))) 8))
          (JS.shl (JS.ToInt32 (JS.index number (i + 2))) 16) in
      let words :=
        set_nth j (JS.bitor (nth j words 0)
                            (JS.bitand (JS.shl w off) 0x3ffffff)) words in
      let words :=
        set_nth (S j) (JS.bitand (JS.ushr w (26 - off)) 0x3ffffff) words in
      let off := off + 24 in
      if 26 <=? off
      then initArray_le_loop count' number (i + 3) (S j) (off - 26) words
      else initArray_le_loop count' number (i + 3) j off words
  end.

(** [new BN(number, 'le')] for an array [number].  bn.js allocates
    [this.length = ceil(number.length / 3)] words; the loop may store one
    word past them, which JavaScript allows and bn.js never reads. *)
Definition of_array_le (number : list JS.number) : t :=
  let len := ((length number + 2) / 3)%nat in
  match number with
  | [] => 0
  | _ =>
      words_value
        (firstn len (initArray_le_loop len number 0 0 0 (repeat 0 (S len))))
  end.

(** [a.and(b)] of two numbers that are not negative. *)
Definition and (a b : t) : t := Z.land a b.

(** [bn.byteLength()]: [ceil(bitLength / 8)]. *)
Definition byteLength (v : t) : nat :=
  if v =? 0 then O else Z.to_nat ((Z.log2 (Z.abs v) + 8) / 8).

(** The [n] low bytes of [v], most significant first. *)
Fixpoint be_bytes (n : nat) (v : Z) : list Z :=
  match n with
  | O => []
  | S n' => be_bytes n' (v / 256) ++ [v mod 256]
  end.

(** [bn.toArray('be')]: the magnitude as big-endian bytes, as many as
    [max(1, byteLength)]. *)
Definition toArray_be (v : t) : list Z :=
  be_bytes (Nat.max 1 (byteLength v)) (Z.abs v).

(** [bn.toArray('le', n)]: the [n] low bytes, least significant first. *)
Fixpoint le_bytes (n : nat) (v : Z) : list Z :=
  match n with
  | O => []
  | S n' => v mod 256 :: le_bytes n' (v / 256)
  end.

(** [bn.toString()], base 10. *)
Definition toString (v : t) : jsstring :=
  if v <? 0 then "-"%chr :: JS.decimal (- v) else JS.decimal v.

End BN.

(** The number an array of bytes denotes, least significant byte first. *)
Fixpoint le_sum (bytes : list Z) : Z :=
  match bytes with
  | [] => 0
  | b :: rest => b + 256 * le_sum rest
  end.

(** ** The integer types (declared in [./integer], which wraps bn.js) *)

Definition UInt64 : Type := BN.t.
Definition Int64 : Type := BN.t.

(** Modelled from the spec: [UInt64.from(bn)] of [./integer]: a [BN] is
    wrapped as it is ("lossless conversion to/from native byte
    sequences"). *)
Definition UInt64_from (v : BN.t) : UInt64 := v.

(** Modelled from the spec: [Int64.from(text)] of [./integer]:
    "construction from decimal-string digits", an optional [-] and at least
    one digit, of "exact-width signed" range. *)
Definition Int64_from_string (s : jsstring) : result Int64 :=
  let parsed :=
    match s with
    | [] => None
    | c :: rest =>
        if JS.char_eqb c "-"
        then match rest with
             | [] => None
             | _ :: _ => option_map Z.opp (JS.parse_digits rest 0)
             end
        else JS.parse_digits s 0
    end in
  match parsed with
  | Some z => if (- 2 ^ 63 <=? z) && (z <? 2 ^ 63) then Ok z else Err IntegerError
  | None => Err IntegerError
  end.

(** Modelled from the spec: [Int64.toString()] of [./integer], "decimal
    string conversion": the numeral of the wrapped [BN]. *)
Definition Int64_toString (v : Int64) : jsstring := BN.toString v.

(** Modelled from the spec: [a.equals(b)] of the integer types of
    [./integer], "equality". *)
Definition Int_equals (a b : BN.t) : bool := a =? b.

(** ** The binary codec (declared in [../serializer]) *)

(** Modelled from the spec: the encoder is a "sequential byte-buffer
    writer", the decoder a "sequential byte-buffer reader"; "all multi-byte
    integers little-endian"; a 64-bit integer takes 8 bytes, and a
    truncated buffer is "a hard decode failure". *)
Definition ABIEncoder : Type := list Z.
Definition ABIDecoder : Type := list Z.

(** Modelled from the spec: [UInt64.toABI] of [./integer] "writes the raw
    64-bit unsigned integer", 8 bytes, least significant first. *)
Definition UInt64_toABI (v : UInt64) (encoder : ABIEncoder) : ABIEncoder :=
  encoder ++ BN.le_bytes 8 v.

(** Modelled from the spec: [UInt64.fromABI] of [./integer] "reads one
    64-bit unsigned integer" off the front of the buffer. *)
Definition UInt64_fromABI (decoder : ABIDecoder) : result (UInt64 * ABIDecoder) :=
  if (length decoder <? 8)%nat then Err DecodeUnderflow
  else Ok (UInt64_from (BN.of_array_le (map JS.Num (firstn 8 decoder))),
           skipn 8 decoder).

(** ** Helper functions of the asset module *)

(** [rawSymbol.value.and(UInt64.from(0xff).value).toNumber()] *)
Definition toSymbolPrecision (rawSymbol : UInt64) : Z :=
  BN.and rawSymbol (UInt64_from 0xff).

(** [chars.map((char) => String.fromCharCode(char)).reverse().join('')] *)
Definition charsToSymbolName (chars : list Z) : jsstring :=
  rev (map JS.fromCharCode chars).

(** [rawSymbol.value.toArray('be').slice(0, -1)], then [charsToSymbolName]. *)
Definition toSymbolName (rawSymbol : UInt64) : jsstring :=
  charsToSymbolName (removelast (BN.toArray_be rawSymbol)).

(** The loop of [toRawSymbolCode]: [count] characters of [name] from its
    start, as char codes. *)
Fixpoint toRawSymbolCode_loop (count : nat) (name : jsstring) : list Z :=
  match count, name with
  | S count', c :: rest => JS.charCode c :: toRawSymbolCode_loop count' rest
  | _, _ => []
  end.

Definition toRawSymbolCode (name : jsstring) : list Z :=
  let length := Nat.min (length name) 7 in
  toRawSymbolCode_loop length name.

(** [array.unshift(precision)], then [UInt64.from(new BN(array, 'le'))]. *)
Definition toRawSymbol (name : jsstring) (precision : JS.number) : UInt64 :=
  let array := map JS.Num (toRawSymbolCode name) in
  let array := precision :: array in
  UInt64_from (BN.of_array_le array).

(** ** [Asset.SymbolCode] *)

Module SymbolCode.

Record t : Type := new { value : UInt64 }.

(** [SymbolCodeType]; the alternative [number] goes through
    [UInt64.from] of the integer module and is left out. *)
Inductive SymbolCodeType : Type :=
| OfSymbolCode (c : t)
| OfUInt64 (v : UInt64)
| OfString (s : jsstring).

Definition from (v : SymbolCodeType) : t :=
  match v with
  | OfSymbolCode c => c
  | OfString s =>
      new (UInt64_from (BN.of_array_le (map JS.Num (toRawSymbolCode s))))
  | OfUInt64 u => new (UInt64_from u)
  end.

Definition fromABI (decoder : ABIDecoder) : result (t * ABIDecoder) :=
  r <- UInt64_fromABI decoder ;; Ok (new (fst r), snd r).

Definition equals (self : t) (other : SymbolCodeType) : bool :=
  Int_equals (value self) (value (from other)).

Definition toABI (self : t) (encoder : ABIEncoder) : ABIEncoder :=
  UInt64_toABI (value self) encoder.

Definition toString (self : t) : jsstring :=
  charsToSymbolName (BN.toArray_be (value self)).

End SymbolCode.

(** ** [Asset.Symbol] *)

Module Symbol.

Record t : Type := mk { value : UInt64 }.

(** [/^[A-Z]{1,7}$/.test(s)] *)
Definition is_upper (c : char) : bool :=
  (65 <=? JS.charCode c) && (JS.charCode c <=? 90).

Definition symbolNamePattern (s : jsstring) : bool :=
  (1 <=? length s)%nat && (length s <=? 7)%nat && forallb is_upper s.

Definition maxPrecision : Z := 18.

(** The constructor: [new Symbol(value)]. *)
Definition new (v : UInt64) : result t :=
  if maxPrecision <? toSymbolPrecision v then Err PrecisionTooLarge
  else if negb (symbolNamePattern (toSymbolName v)) then Err NameNotUppercase
  else Ok (mk v).

Inductive SymbolType : Type :=
| OfSymbol (s : t)
| OfUInt64 (v : UInt64)
| OfString (s : jsstring).

Definition fromParts (name : jsstring) (precision : JS.number) : result t :=
  new (toRawSymbol name precision).

Definition from (v : SymbolType) : result t :=
  match v with
  | OfSymbol s => Ok s
  | OfUInt64 u => new u
  | OfString s =>
      match JS.split "," s with
      | [p; n] =>
          let precision := JS.parseInt p in
          fromParts n precision
      | _ => Err InvalidSymbolString
      end
  end.

Definition fromABI (decoder : ABIDecoder) : result (t * ABIDecoder) :=
  r <- UInt64_fromABI decoder ;;
  s <- new (fst r) ;;
  Ok (s, snd r).

Definition equals (self : t) (other : SymbolType) : result bool :=
  o <- from other ;; Ok (Int_equals (value self) (value o)).

Definition name (self : t) : jsstring := toSymbolName (value self).

Definition precision (self : t) : Z := toSymbolPrecision (value self).

(** [new SymbolCode(UInt64.from(this.value.value.clone().iushrn(8)))];
    the store of [BN] objects that [clone] and [iushrn] act on is
    modelled in [Module Heap] below. *)
Definition code (self : t) : SymbolCode.t :=
  SymbolCode.new (UInt64_from (Z.shiftr (value self) 8)).

Definition toABI (self : t) (encoder : ABIEncoder) : ABIEncoder :=
  UInt64_toABI (value self) encoder.

(** [Math.pow(10, p)]; exact for the precisions a constructed Symbol can
    have (18 at most). *)
Definition pow10 (p : Z) : float := PrimFloat.of_uint63 (Uint63.of_Z (10 ^ p)).

Section ConvertFloat.

(** [Int64.from(rv)] for a number [rv], of [./integer]; [None] when it
    throws. *)
Variable Int64_from_number : float -> option Int64.

Definition convertFloat (self : t) (float : PrimFloat.float) : result Int64 :=
  let rv := PrimFloat.mul (pow10 (precision self)) float in
  if PrimFloat.leb 0x20000000000000%float rv
  then Err ConversionLoosesPrecision
  else match Int64_from_number rv with
       | Some u => Ok u
       | None => Err IntegerError
       end.

End ConvertFloat.

Definition toString (self : t) : jsstring :=
  JS.Number_toString (JS.Num (precision self)) ++ ","%chr :: name self.

End Symbol.

(** ** [Asset] *)

Module Asset.

Record t : Type := new { units : Int64; symbol : Symbol.t }.

Inductive AssetType : Type :=
| OfAsset (a : t)
| OfString (s : jsstring).

Definition from (v : AssetType) : result t :=
  match v with
  | OfAsset a => Ok a
  | OfString s =>
      match JS.split " " s with
      | [amount_text; ticker] =>
          let amount := JS.replace_first "." amount_text in
          let precision :=
            Z.of_nat (length (nth 1 (JS.split "." amount_text) [])) in
          symbol <- Symbol.fromParts ticker (JS.Num precision) ;;
          units <- Int64_from_string amount ;;
          Ok (new units symbol)
      | _ => Err InvalidAssetString
      end
  end.

Definition equals (self : t) (other : AssetType) : result bool :=
  o <- from other ;;
  Ok (Int_equals (Symbol.value (symbol self)) (Symbol.value (symbol o))
      && Int_equals (units self) (units o)).

(** The setter of [value]. *)
Definition set_value (Int64_from_number : float -> option Int64)
           (self : t) (newValue : float) : result t :=
  u <- Symbol.convertFloat Int64_from_number (symbol self) newValue ;;
  Ok (new u (symbol self)).

(** [while (digits.length <= p) digits.unshift('0')]; the loop runs at
    most [p + 1] times. *)
Fixpoint unshift_zeros (fuel : nat) (p : Z) (digits : jsstring) : jsstring :=
  match fuel with
  | O => digits
  | S fuel' =>
      if Z.of_nat (length digits) <=? p
      then unshift_zeros fuel' p ("0"%chr :: digits)
      else digits
  end.

(** [digits.splice(start, 0, x)] for [0 <= start <= digits.length]. *)
Definition splice_insert (start : Z) (x : char) (digits : jsstring) : jsstring :=
  firstn (Z.to_nat start) digits ++ x :: skipn (Z.to_nat start) digits.

(** [if (digits[0] === '-') { negative = true; digits.shift() }] *)
Definition detach_sign (digits : jsstring) : bool * jsstring :=
  match digits with
  | c :: rest => if JS.char_eqb c "-" then (true, rest) else (false, digits)
  | [] => (false, digits)
  end.

Definition toString (self : t) : jsstring :=
  let digits := Int64_toString (units self) in
  let '(negative, digits) := detach_sign digits in
  let p := Symbol.precision (symbol self) in
  let digits := unshift_zeros (Z.to_nat (p + 1)) p digits in
  let digits :=
    if 0 <? p
    then splice_insert (Z.of_nat (length digits) - p) "." digits
    else digits in
  let rv := digits in
  let rv := if negative then "-"%chr :: rv else rv in
  rv ++ " "%chr :: Symbol.name (symbol self).

End Asset.

(** ** The store of [BN] objects

    A bn.js number is a mutable object: [iushrn] shifts it in place and
    returns it, [clone] allocates a copy.  The [code] getter is the one
    place of the module that calls a mutating method, so it is modelled
    once more over an explicit store, where a [UInt64] holds a reference to
    its [BN]. *)

Module Heap.

Definition ref : Type := nat.

(** The [BN] objects allocated so far, by address. *)
Definition store : Type := list Z.

Definition M (A : Type) : Type := store -> A * store.

Definition ret {A : Type} (a : A) : M A := fun h => (a, h).

Definition bind {A B : Type} (m : M A) (k : A -> M B) : M B :=
  fun h => let '(a, h') := m h in k a h'.

Definition read (r : ref) (h : store) : Z := nth r h 0.

Definition allocated (r : ref) (h : store) : Prop := (r < length h)%nat.

(** [bn.clone()] *)
Definition clone (r : ref) : M ref :=
  fun h => (length h, h ++ [read r h]).

(** [bn.iushrn(bits)]: shifts [bn] itself and returns it. *)
Definition iushrn (r : ref) (bits : Z) : M ref :=
  fun h => (r, BN.set_nth r (Z.shiftr (read r h) bits) h).

(** A [UInt64] object: its field [value] refers to a [BN]. *)
Record UInt64 : Type := { UInt64_value : ref }.
Record Symbol : Type := { Symbol_value : UInt64 }.
Record SymbolCode : Type := { SymbolCode_value : UInt64 }.

(** Modelled from the spec: [UInt64.from(bn)] of the integer module
    wraps the [BN] it is given. *)
Definition UInt64_from (r : ref) : UInt64 := {| UInt64_value := r |}.

(** [new SymbolCode(UInt64.from(this.value.value.clone().iushrn(8)))] *)
Definition code (self : Symbol) : M SymbolCode :=
  bind (clone (UInt64_value (Symbol_value self))) (fun copy =>
  bind (iushrn copy 8) (fun shifted =>
  ret {| SymbolCode_value := UInt64_from shifted |})).

(** What the getters that only read see of a Symbol in a store. *)
Definition raw (self : Symbol) (h : store) : Z :=
  read (UInt64_value (Symbol_value self)) h.

Definition precision (self : Symbol) (h : store) : Z :=
  toSymbolPrecision (raw self h).

Definition name (self : Symbol) (h : store) : jsstring :=
  toSymbolName (raw self h).

Definition code_raw (c : SymbolCode) (h : store) : Z :=
  read (UInt64_value (SymbolCode_value c)) h.

End Heap.

(** ** Notions the statements below are written with *)

(** A byte. *)
Definition is_byte (b : Z) : Prop := 0 <= b < 256.

(** [l] less the zero elements at its end. *)
Fixpoint strip_trailing {A : Type} (is_zero : A -> bool) (l : list A) : list A :=
  match l with
  | [] => []
  | x :: rest =>
      match strip_trailing is_zero rest with
      | [] => if is_zero x then [] else [x]
      | rest' => x :: rest'
      end
  end.

Definition is_zero (b : Z) : bool := b =? 0.

Definition is_digit (c : char) : bool :=
  (48 <=? JS.charCode c) && (JS.charCode c <=? 57).

Definition is_nul (c : char) : bool := JS.char_eqb c JS.nul.

(** A character whose code fits one byte. *)
Definition one_byte (c : char) : Prop := JS.charCode c < 256.

(** The ticker text that [toRawSymbol] packs and [toSymbolName] reads back:
    the first 7 characters, less the NUL characters at their end. *)
Definition packed_ticker (name : jsstring) : jsstring :=
  strip_trailing is_nul (firstn 7 name).

(** A Symbol the constructor accepts, over an unsigned value. *)
Definition valid_symbol (s : Symbol.t) : Prop :=
  0 <= Symbol.value s /\ Symbol.new (Symbol.value s) = Ok s.

(** The ways a new [Symbol] instance comes into being. *)
Inductive SymbolSource : Type :=
| FromPacked (v : UInt64)                          (* Symbol.from(uint64) *)
| FromString (s : jsstring)                        (* Symbol.from("p,TICKER") *)
| FromParts (name : jsstring) (precision : JS.number)
| FromABI (decoder : ABIDecoder).

Definition construct (src : SymbolSource) : result Symbol.t :=
  match src with
  | FromPacked v => Symbol.from (Symbol.OfUInt64 v)
  | FromString s => Symbol.from (Symbol.OfString s)
  | FromParts name precision => Symbol.fromParts name precision
  | FromABI decoder => r <- Symbol.fromABI decoder ;; Ok (fst r)
  end.

(** The packed integer a source hands to the constructor, if it gets
    that far. *)
Definition packed_value (src : SymbolSource) : option UInt64 :=
  match src with
  | FromPacked v => Some v
  | FromString s =>
      match JS.split "," s with
      | [p; n] => Some (toRawSymbol n (JS.parseInt p))
      | _ => None
      end
  | FromParts name precision => Some (toRawSymbol name precision)
  | FromABI decoder =>
      match UInt64_fromABI decoder with
      | Ok r => Some (fst r)
      | Err _ => None
      end
  end.

(** The charset rule read strictly: an empty ticker, a ticker of more than
    7 characters, or one with a character outside A-Z. *)
Definition outside_charset (name : jsstring) : Prop :=
  name = [] \/ (7 < length name)%nat
  \/ exists c, In c name /\ Symbol.is_upper c = false.

Definition zeros (k : nat) : jsstring := repeat "0"%chr k.

(** The digits [Asset.toString] works on: the decimal numeral of [|units|],
    with zeros on the left up to [p + 1] digits. *)
Definition padded_digits (u p : Z) : jsstring :=
  let d := JS.decimal (Z.abs u) in
  zeros (Z.to_nat (p + 1 - Z.of_nat (length d))) ++ d.

Definition sign_text (u : Z) : jsstring := if u <? 0 then ["-"%chr] else [].

(** An amount text of the form [<sign?><digits>[.<digits>]]. *)
Definition amount_text (negative : bool) (int_part frac_part : jsstring)
           (dotted : bool) : jsstring :=
  (if negative then ["-"%chr] else [])
    ++ int_part ++ (if dotted then "."%chr :: frac_part else []).

(** [v] with its sign. *)
Definition signed (negative : bool) (v : Z) : Z := if negative then - v else v.

(** 2^53, as [0x20000000000000] in the source. *)
Definition two53 : float := 0x20000000000000%float.

(** ** The rest of the module: the binary codec of Asset, ExtendedAsset *)

(** Modelled from the spec: [Int64.toABI] of [./integer] writes the "8
    bytes signed units", in two's complement, least significant byte
    first. *)
Definition Int64_toABI (v : Int64) (encoder : ABIEncoder) : ABIEncoder :=
  encoder ++ BN.le_bytes 8 (v mod 2 ^ 64).

(** Modelled from the spec: [Int64.fromABI] of [./integer] reads 8 bytes
    off the front of the buffer as a signed integer in two's complement. *)
Definition Int64_fromABI (decoder : ABIDecoder) : result (Int64 * ABIDecoder) :=
  if (length decoder <? 8)%nat then Err DecodeUnderflow
  else
    let raw := BN.of_array_le (map JS.Num (firstn 8 decoder)) in
    Ok (if raw <? 2 ^ 63 then raw else raw - 2 ^ 64, skipn 8 decoder).

(** [Asset.fromABI]: the units, then the symbol. *)
Definition Asset_fromABI (decoder : ABIDecoder) : result (Asset.t * ABIDecoder) :=
  units <- Int64_fromABI decoder ;;
  symbol <- Symbol.fromABI (snd units) ;;
  Ok (Asset.new (fst units) (fst symbol), snd symbol).

(** [Asset.toABI]: [this.units.toABI(encoder); this.symbol.toABI(encoder)] *)
Definition Asset_toABI (self : Asset.t) (encoder : ABIEncoder) : ABIEncoder :=
  let encoder := Int64_toABI (Asset.units self) encoder in
  Symbol.toABI (Asset.symbol self) encoder.

(** The account-name type of [./name], as this module uses it: a class
    with [from], [fromABI], [toABI] and [equals]; a [Name] is itself a
    [NameType]. *)
Record NameInterface : Type := {
  Name : Type;
  NameType : Type;
  Name_as_type : Name -> NameType;
  Name_from : NameType -> result Name;
  Name_fromABI : ABIDecoder -> result (Name * ABIDecoder);
  Name_toABI : Name -> ABIEncoder -> ABIEncoder;
  Name_equals : Name -> NameType -> result bool
}.

(** An instance to run the examples with: a name held as its 64-bit value
    and coded as a [UInt64]. *)
Definition UInt64Name : NameInterface := {|
  Name := UInt64;
  NameType := Z;
  Name_as_type := fun n => n;
  Name_from := fun v => if (0 <=? v) && (v <? 2 ^ 64) then Ok v else Err IntegerError;
  Name_fromABI := UInt64_fromABI;
  Name_toABI := UInt64_toABI;
  Name_equals := fun n v =>
    if (0 <=? v) && (v <? 2 ^ 64) then Ok (Int_equals n v) else Err IntegerError
|}.

(** ** [ExtendedAsset] *)

Module ExtendedAsset.

Section WithName.

Variable N : NameInterface.

Record t : Type := new { quantity : Asset.t; contract : Name N }.

(** [ExtendedAssetType]: an instance, or an object with a [quantity] and
    a [contract]. *)
Inductive ExtendedAssetType : Type :=
| OfExtendedAsset (e : t)
| OfObject (quantity : Asset.AssetType) (contract : NameType N).

(** [value.quantity] and [value.contract] of an [ExtendedAssetType]. *)
Definition quantity_of (value : ExtendedAssetType) : Asset.AssetType :=
  match value with
  | OfExtendedAsset e => Asset.OfAsset (quantity e)
  | OfObject q _ => q
  end.

Definition contract_of (value : ExtendedAssetType) : NameType N :=
  match value with
  | OfExtendedAsset e => Name_as_type N (contract e)
  | OfObject _ c => c
  end.

Definition from (value : ExtendedAssetType) : result t :=
  match value with
  | OfExtendedAsset e => Ok e
  | OfObject q c =>
      quantity <- Asset.from q ;;
      contract <- Name_from N c ;;
      Ok (new quantity contract)
  end.

Definition fromABI (decoder : ABIDecoder) : result (t * ABIDecoder) :=
  quantity <- Asset_fromABI decoder ;;
  contract <- Name_fromABI N (snd quantity) ;;
  Ok (new (fst quantity) (fst contract), snd contract).

(** [this.quantity.equals(other.quantity) && this.contract.equals(other.contract)]:
    the right operand is evaluated only when the left one is true. *)
Definition equals (self : t) (other : ExtendedAssetType) : result bool :=
  same_quantity <- Asset.equals (quantity self) (quantity_of other) ;;
  if (same_quantity : bool)
  then Name_equals N (contract self) (contract_of other)
  else Ok false.

Definition toABI (self : t) (encoder : ABIEncoder) : ABIEncoder :=
  let encoder := Asset_toABI (quantity self) encoder in
  Name_toABI N (contract self) encoder.

End WithName.

End ExtendedAsset.

(** * Properties *)

(** ** bn.js: a number from an array of bytes *)

Lemma wrap32_small z : - 2 ^ 31 <= z < 2 ^ 31 -> JS.wrap32 z = z.
Proof.
  intros H. unfold JS.wrap32.
  rewrite Z.mod_small by lia. lia.
Qed.

Lemma lor_disjoint a c k :
  0 <= k -> 0 <= a < 2 ^ k -> Z.lor a (c * 2 ^ k) = a + c * 2 ^ k.
Proof.
  intros Hk Ha.
  rewrite <- Z.add_lor_land.
  assert (E : Z.land a (c * 2 ^ k) = 0).
  { apply Z.bits_inj'. intros n Hn.
    rewrite Z.land_spec, Z.bits_0.
    destruct (Z_lt_le_dec n k) as [Hlt | Hge].
    - rewrite Z.mul_pow2_bits_low by lia. apply andb_false_r.
    - assert (Z.testbit a n = false) as ->; [| reflexivity].
      destruct (Z.eq_dec a 0) as [-> | Hnz]; [apply Z.bits_0 |].
      apply Z.bits_above_log2; [lia |].
      apply Z.log2_lt_pow2; [lia |].
      apply Z.lt_le_trans with (2 ^ k); [lia |].
      apply Z.pow_le_mono_r; lia. }
  rewrite E. lia.
Qed.

Lemma shl_low w off :
  0 <= w < 2 ^ 24 -> 0 <= off < 26 ->
  JS.bitand (JS.shl w off) 0x3ffffff = (w mod 2 ^ (26 - off)) * 2 ^ off.
Proof.
  intros Hw Hoff. unfold JS.bitand, JS.shl, JS.wrap32.
  rewrite (Z.mod_small off 32) by lia.
  rewrite Z.shiftl_mul_pow2 by lia.
  change 0x3ffffff with (Z.ones 26).
  rewrite Z.land_ones by lia.
  assert (H26 : 2 ^ 26 = 2 ^ (26 - off) * 2 ^ off).
  { rewrite <- Z.pow_add_r by lia. f_equal. lia. }
  assert (Hp : 0 < 2 ^ off) by (apply Z.pow_pos_nonneg; lia).
  assert (Hq : 0 < 2 ^ (26 - off)) by (apply Z.pow_pos_nonneg; lia).
  (* the wrap to 32 bits does not touch the low 26 bits *)
  assert (E : ((w * 2 ^ off + 2 ^ 31) mod 2 ^ 32 - 2 ^ 31) mod 2 ^ 26
              = (w * 2 ^ off) mod 2 ^ 26).
  { set (x := w * 2 ^ off).
    replace ((x + 2 ^ 31) mod 2 ^ 32 - 2 ^ 31)
      with (x + (- (64 * ((x + 2 ^ 31) / 2 ^ 32))) * 2 ^ 26).
    - apply Z.mod_add. lia.
    - pose proof (Z.div_mod (x + 2 ^ 31) (2 ^ 32)). lia. }
  rewrite E, H26.
  rewrite Z.mul_mod_distr_r by lia. reflexivity.
Qed.

Lemma ushr_high w off :
  0 <= w < 2 ^ 24 -> 0 <= off < 26 ->
  JS.bitand (JS.ushr w (26 - off)) 0x3ffffff = w / 2 ^ (26 - off).
Proof.
  intros Hw Hoff. unfold JS.bitand, JS.ushr.
  rewrite (Z.mod_small (26 - off) 32) by lia.
  rewrite (Z.mod_small w) by lia.
  rewrite Z.shiftr_div_pow2 by lia.
  change 0x3ffffff with (Z.ones 26).
  rewrite Z.land_ones by lia.
  apply Z.mod_small.
  assert (Hq : 0 < 2 ^ (26 - off)) by (apply Z.pow_pos_nonneg; lia).
  split; [apply Z.div_pos; lia |].
  apply Z.le_lt_trans with w; [| lia].
  apply Z.div_le_upper_bound; nia.
Qed.

Lemma chunk_bytes b0 b1 b2 :
  is_byte b0 -> is_byte b1 -> is_byte b2 ->
  JS.bitor (JS.bitor (JS.wrap32 b0) (JS.shl (JS.wrap32 b1) 8))
           (JS.shl (JS.wrap32 b2) 16)
  = b0 + 256 * b1 + 65536 * b2.
Proof.
  unfold is_byte. intros H0 H1 H2.
  rewrite !wrap32_small by lia.
  unfold JS.shl, JS.bitor.
  change (8 mod 32) with 8. change (16 mod 32) with 16.
  rewrite !Z.shiftl_mul_pow2 by lia.
  rewrite !wrap32_small by lia.
  rewrite (lor_disjoint b0 b1 8) by lia.
  rewrite (lor_disjoint _ b2 16) by lia.
  lia.
Qed.

Lemma ushr_high' w k :
  0 <= w < 2 ^ 24 -> 0 < k <= 26 ->
  JS.bitand (JS.ushr w k) 0x3ffffff = w / 2 ^ k.
Proof.
  intros Hw Hk. replace k with (26 - (26 - k)) by lia.
  apply ushr_high; lia.
Qed.

Lemma words_1 w0 :
  0 <= w0 < 2 ^ 24 ->
  BN.words_value [JS.bitor 0 (JS.bitand (JS.shl w0 0) 0x3ffffff)] = w0.
Proof.
  intros H0. rewrite shl_low by lia.
  unfold JS.bitor. rewrite Z.lor_0_l. cbn [BN.words_value].
  change (2 ^ (26 - 0)) with (2 ^ 26). rewrite Z.mod_small; lia.
Qed.

Lemma words_2 w0 w1 :
  0 <= w0 < 2 ^ 24 -> 0 <= w1 < 2 ^ 24 ->
  BN.words_value
    [JS.bitor (JS.bitor 0 (JS.bitand (JS.shl w0 0) 0x3ffffff))
              (JS.bitand (JS.shl w1 24) 0x3ffffff);
     JS.bitand (JS.ushr w1 2) 0x3ffffff]
  = w0 + 2 ^ 24 * w1.
Proof.
  intros H0 H1. rewrite !shl_low, ushr_high' by lia.
  unfold JS.bitor. rewrite Z.lor_0_l.
  change (2 ^ (26 - 0)) with (2 ^ 26). change (2 ^ (26 - 24)) with 4.
  rewrite (Z.mod_small w0) by lia.
  rewrite Z.pow_0_r, Z.mul_1_r.
  rewrite lor_disjoint by lia.
  cbn [BN.words_value].
  change (2 ^ 2) with 4.
  pose proof (Z.div_mod w1 4). pose proof (Z.mod_pos_bound w1 4). lia.
Qed.

Lemma words_3 w0 w1 w2 :
  0 <= w0 < 2 ^ 24 -> 0 <= w1 < 2 ^ 24 -> 0 <= w2 < 2 ^ 24 ->
  BN.words_value
    [JS.bitor (JS.bitor 0 (JS.bitand (JS.shl w0 0) 0x3ffffff))
              (JS.bitand (JS.shl w1 24) 0x3ffffff);
     JS.bitor (JS.bitand (JS.ushr w1 2) 0x3ffffff)
              (JS.bitand (JS.shl w2 22) 0x3ffffff);
     JS.bitand (JS.ushr w2 4) 0x3ffffff]
  = w0 + 2 ^ 24 * w1 + 2 ^ 48 * w2.
Proof.
  intros H0 H1 H2. rewrite !shl_low, !ushr_high' by lia.
  unfold JS.bitor. rewrite Z.lor_0_l.
  change (2 ^ (26 - 0)) with (2 ^ 26). change (2 ^ (26 - 24)) with 4.
  change (2 ^ (26 - 22)) with 16. change (2 ^ 2) with 4. change (2 ^ 4) with 16.
  rewrite (Z.mod_small w0) by lia.
  rewrite Z.pow_0_r, Z.mul_1_r.
  rewrite (lor_disjoint w0) by lia.
  pose proof (Z.div_mod w1 4). pose proof (Z.mod_pos_bound w1 4).
  pose proof (Z.div_mod w2 16). pose proof (Z.mod_pos_bound w2 16).
  rewrite (lor_disjoint (w1 / 4)) by lia.
  cbn [BN.words_value]. lia.
Qed.

Ltac pad_chunks :=
  repeat match goal with
    | |- context [JS.shl 0 ?k] => change (JS.shl 0 k) with (JS.shl (JS.wrap32 0) k)
    end.

Ltac of_array_le_case :=
  let Hb := fresh "Hb" in
  intros Hb _;
  repeat match goal with
    | H : Forall _ (_ :: _) |- _ => apply Forall_cons_iff in H as [? ?]
    end;
  try reflexivity;
  unfold BN.of_array_le;
  cbn -[JS.bitor JS.shl JS.ushr JS.bitand JS.wrap32 BN.words_value le_sum];
  pad_chunks;
  rewrite !chunk_bytes by (assumption || (unfold is_byte; lia));
  unfold is_byte in *;
  first [ rewrite words_3 by lia | rewrite words_2 by lia | rewrite words_1 by lia ];
  cbn [le_sum]; lia.

Lemma of_array_le_bytes (l : list Z) :
  Forall is_byte l -> (length l <= 8)%nat ->
  BN.of_array_le (map JS.Num l) = le_sum l.
Proof.
  do 9 (destruct l as [| ? l]; [ of_array_le_case | ]).
  cbn [length]. lia.
Qed.

Lemma Forall_firstn_keeps {A} (P : A -> Prop) n (l : list A) :
  Forall P l -> Forall P (firstn n l).
Proof.
  intros H. revert n. induction H as [| x l Hx _ IH]; intros [| n];
    cbn [firstn]; constructor; auto.
Qed.

(** What holds of every array. *)

Lemma set_nth_Forall (P : Z -> Prop) j x l :
  P x -> Forall P l -> Forall P (BN.set_nth j x l).
Proof.
  intros Hx Hl. revert j. induction Hl as [| y l Hy Hl IH]; intros [| j];
    cbn [BN.set_nth]; constructor; auto.
Qed.

Lemma nth_nonneg j (l : list Z) : Forall (Z.le 0) l -> 0 <= nth j l 0.
Proof.
  intros Hl. revert j. induction Hl as [| y l Hy _ IH]; intros [| j];
    cbn [nth]; auto; lia.
Qed.

Lemma initArray_le_loop_nonneg count number i j off words :
  Forall (Z.le 0) words ->
  Forall (Z.le 0) (BN.initArray_le_loop count number i j off words).
Proof.
  revert i j off words. induction count as [| count IH]; intros i j off words Hw;
    [exact Hw |].
  cbn [BN.initArray_le_loop]. cbv zeta.
  assert (Hmask : forall x, 0 <= JS.bitand x 0x3ffffff).
  { intros x. unfold JS.bitand. apply Z.land_nonneg. right. lia. }
  assert (Hstep : forall w,
    Forall (Z.le 0)
      (BN.set_nth (S j) (JS.bitand (JS.ushr w (26 - off)) 0x3ffffff)
         (BN.set_nth j (JS.bitor (nth j words 0)
                                 (JS.bitand (JS.shl w off) 0x3ffffff)) words))).
  { intros w. apply set_nth_Forall; [apply Hmask |].
    apply set_nth_Forall; [| exact Hw].
    unfold JS.bitor. apply Z.lor_nonneg. split; [now apply nth_nonneg | apply Hmask]. }
  destruct (26 <=? off + 24); apply IH; apply Hstep.
Qed.

Lemma words_value_nonneg words : Forall (Z.le 0) words -> 0 <= BN.words_value words.
Proof.
  induction 1 as [| w l Hw _ IH]; cbn [BN.words_value]; lia.
Qed.

Lemma of_array_le_nonneg number : 0 <= BN.of_array_le number.
Proof.
  unfold BN.of_array_le. destruct number as [| n0 rest]; [lia |].
  apply words_value_nonneg. apply Forall_firstn_keeps.
  apply initArray_le_loop_nonneg. apply Forall_forall.
  intros x Hx. apply repeat_spec in Hx. lia.
Qed.

Lemma mod256_bitor a b : JS.bitor a b mod 256 = JS.bitor (a mod 256) (b mod 256).
Proof.
  unfold JS.bitor. change 256 with (2 ^ 8).
  rewrite <- !Z.land_ones by lia. apply Z.land_lor_distr_l.
Qed.

Lemma mod256_wrap32 z : JS.wrap32 z mod 256 = z mod 256.
Proof.
  unfold JS.wrap32.
  replace ((z + 2 ^ 31) mod 2 ^ 32 - 2 ^ 31)
    with (z + (- (2 ^ 24 * ((z + 2 ^ 31) / 2 ^ 32))) * 256).
  - apply Z.mod_add. lia.
  - pose proof (Z.div_mod (z + 2 ^ 31) (2 ^ 32)). lia.
Qed.

Lemma mod256_shl x k : 8 <= k < 32 -> JS.shl x k mod 256 = 0.
Proof.
  intros Hk. unfold JS.shl. rewrite mod256_wrap32, (Z.mod_small k 32) by lia.
  rewrite Z.shiftl_mul_pow2 by lia.
  replace (2 ^ k) with (2 ^ (k - 8) * 256)
    by (change 256 with (2 ^ 8); rewrite <- Z.pow_add_r by lia; f_equal; lia).
  rewrite Z.mul_assoc. apply Z.mod_mul. lia.
Qed.

Lemma mod256_shl0 x : JS.shl x 0 mod 256 = x mod 256.
Proof.
  unfold JS.shl. rewrite mod256_wrap32. change (0 mod 32) with 0.
  now rewrite Z.shiftl_0_r.
Qed.

Lemma mod256_mask x : JS.bitand x 0x3ffffff mod 256 = x mod 256.
Proof.
  unfold JS.bitand. change 0x3ffffff with (Z.ones 26). rewrite Z.land_ones by lia.
  change (2 ^ 26) with (256 * 2 ^ 18).
  rewrite Z.rem_mul_r by lia.
  rewrite (Z.mul_comm 256), Z.mod_add by lia. apply Z.mod_mod. lia.
Qed.

Lemma mod256_words_value w rest :
  BN.words_value (w :: rest) mod 256 = w mod 256.
Proof.
  cbn [BN.words_value]. change (2 ^ 26) with (2 ^ 18 * 256).
  replace (w + 2 ^ 18 * 256 * BN.words_value rest)
    with (w + (2 ^ 18 * BN.words_value rest) * 256) by ring.
  apply Z.mod_add. lia.
Qed.

Ltac low_byte :=
  unfold BN.of_array_le;
  cbn -[JS.bitor JS.shl JS.ushr JS.bitand JS.wrap32 JS.ToInt32 BN.words_value Z.modulo];
  rewrite mod256_words_value;
  repeat first [ rewrite mod256_bitor | rewrite mod256_mask | rewrite mod256_shl0
               | rewrite mod256_shl by lia ];
  unfold JS.bitor; change (0 mod 256) with 0;
  now rewrite ?Z.lor_0_r, ?Z.lor_0_l, ?Z.mod_mod by lia.

(** The low byte of the number is the low byte of the first element,
    whatever the elements are. *)
Lemma of_array_le_low_byte n0 rest :
  (length rest <= 7)%nat ->
  BN.of_array_le (n0 :: rest) mod 256 = JS.ToInt32 n0 mod 256.
Proof.
  do 8 (destruct rest as [| ? rest]; [intros _; low_byte |]).
  cbn [length]. lia.
Qed.

(** ** The bytes of a number *)


Lemma le_sum_bound l :
  Forall is_byte l -> 0 <= le_sum l < 256 ^ Z.of_nat (length l).
Proof.
  induction 1 as [| b l Hb _ IH]; cbn [le_sum length].
  - rewrite Z.pow_0_r. lia.
  - rewrite Nat2Z.inj_succ, Z.pow_succ_r by lia. unfold is_byte in Hb. lia.
Qed.

Lemma le_sum_lower l :
  Forall is_byte l -> l <> [] -> last l 0 <> 0 ->
  256 ^ (Z.of_nat (length l) - 1) <= le_sum l.
Proof.
  induction 1 as [| b l Hb Hl IH]; [congruence |].
  intros _ Hlast. cbn [le_sum length]. rewrite Nat2Z.inj_succ.
  replace (Z.succ (Z.of_nat (length l)) - 1) with (Z.of_nat (length l)) by lia.
  unfold is_byte in Hb.
  destruct l as [| c l'].
  - cbn in *. lia.
  - assert (Hrec : 256 ^ (Z.of_nat (length (c :: l')) - 1) <= le_sum (c :: l')).
    { apply IH; [congruence | exact Hlast]. }
    replace (Z.of_nat (length (c :: l')))
      with (Z.succ (Z.of_nat (length (c :: l')) - 1)) at 1 by lia.
    rewrite Z.pow_succ_r by (cbn [length]; lia). lia.
Qed.

Lemma byteLength_bounds v n :
  (0 < n)%nat -> 256 ^ (Z.of_nat n - 1) <= v < 256 ^ Z.of_nat n ->
  BN.byteLength v = n.
Proof.
  intros Hn [Hlo Hhi].
  assert (Hpos : 0 < v).
  { apply Z.lt_le_trans with (256 ^ (Z.of_nat n - 1)); [| exact Hlo].
    apply Z.pow_pos_nonneg; lia. }
  unfold BN.byteLength.
  destruct (Z.eqb_spec v 0) as [-> | _]; [lia |].
  rewrite Z.abs_eq by lia.
  change 256 with (2 ^ 8) in Hlo, Hhi.
  rewrite <- Z.pow_mul_r in Hlo, Hhi by lia.
  apply Z.log2_le_pow2 in Hlo; [| lia].
  apply Z.log2_lt_pow2 in Hhi; [| lia].
  assert (E : (Z.log2 v + 8) / 8 = Z.of_nat n).
  { symmetry. apply Z.div_unique with (Z.log2 v + 8 - 8 * Z.of_nat n); lia. }
  rewrite E. apply Nat2Z.id.
Qed.

Lemma be_bytes_le_sum l :
  Forall is_byte l -> BN.be_bytes (length l) (le_sum l) = rev l.
Proof.
  induction 1 as [| b l Hb Hl IH]; [reflexivity |].
  cbn [length BN.be_bytes le_sum rev]. unfold is_byte in Hb.
  replace ((b + 256 * le_sum l) / 256) with (le_sum l)
    by (apply Z.div_unique with b; lia).
  replace ((b + 256 * le_sum l) mod 256) with b
    by (apply Z.mod_unique with (le_sum l); lia).
  now rewrite IH.
Qed.

Lemma le_sum_strip l : le_sum (strip_trailing is_zero l) = le_sum l.
Proof.
  induction l as [| b l IH]; [reflexivity |].
  cbn [strip_trailing le_sum]. rewrite <- IH.
  destruct (strip_trailing is_zero l) as [| c r].
  - unfold is_zero. destruct (Z.eqb_spec b 0); cbn [le_sum]; lia.
  - reflexivity.
Qed.

Lemma strip_Forall {A} (P : A -> Prop) z (l : list A) :
  Forall P l -> Forall P (strip_trailing z l).
Proof.
  induction 1 as [| b l Hb Hl IH]; [constructor |].
  cbn [strip_trailing].
  destruct (strip_trailing z l) as [| c r].
  - destruct (z b); auto.
  - auto.
Qed.

Lemma strip_last {A} z (d : A) (l : list A) :
  strip_trailing z l <> [] -> z (last (strip_trailing z l) d) = false.
Proof.
  induction l as [| b l IH]; [cbn; congruence |].
  cbn [strip_trailing].
  destruct (strip_trailing z l) as [| c r] eqn:E.
  - destruct (z b) eqn:Eb; [congruence | intros _; exact Eb].
  - intros _. change (last (b :: c :: r) d) with (last (c :: r) d).
    apply IH. congruence.
Qed.

Lemma toArray_be_le_sum l :
  Forall is_byte l ->
  BN.toArray_be (le_sum l) =
    match strip_trailing is_zero l with
    | [] => [0]
    | s => rev s
    end.
Proof.
  intros Hb. rewrite <- (le_sum_strip l).
  pose proof (strip_Forall is_byte is_zero l Hb) as Hs.
  pose proof (strip_last is_zero 0 l) as Hlast.
  destruct (strip_trailing is_zero l) as [| c r] eqn:E; [reflexivity |].
  set (s := c :: r) in *.
  assert (Hne : s <> []) by (subst s; congruence).
  specialize (Hlast Hne). unfold is_zero in Hlast. apply Z.eqb_neq in Hlast.
  pose proof (le_sum_bound s Hs) as Hub.
  pose proof (le_sum_lower s Hs Hne Hlast) as Hlb.
  unfold BN.toArray_be.
  rewrite (byteLength_bounds (le_sum s) (length s)); [| subst s; cbn [length]; lia | lia].
  replace (Nat.max 1 (length s)) with (length s) by (subst s; cbn [length]; lia).
  rewrite Z.abs_eq by lia.
  apply be_bytes_le_sum; assumption.
Qed.

Lemma be_bytes_length n v : length (BN.be_bytes n v) = n.
Proof.
  revert v. induction n as [| n IH]; intros v; [reflexivity |].
  cbn [BN.be_bytes]. rewrite length_app, IH. cbn [length]. lia.
Qed.

Lemma be_bytes_Forall n v : Forall is_byte (BN.be_bytes n v).
Proof.
  revert v. induction n as [| n IH]; intros v; [constructor |].
  cbn [BN.be_bytes]. apply Forall_app. split; [apply IH |].
  constructor; [| constructor]. unfold is_byte.
  pose proof (Z.mod_pos_bound v 256). lia.
Qed.

Lemma le_sum_rev_be_bytes n v :
  0 <= v -> le_sum (rev (BN.be_bytes n v)) = v mod 256 ^ Z.of_nat n.
Proof.
  revert v. induction n as [| n IH]; intros v Hv.
  - cbn. now rewrite Z.mod_1_r.
  - cbn [BN.be_bytes]. rewrite rev_app_distr. cbn [rev app le_sum].
    rewrite IH by (apply Z.div_pos; lia).
    rewrite Nat2Z.inj_succ, Z.pow_succ_r by lia.
    assert (Hp : 0 < 256 ^ Z.of_nat n) by (apply Z.pow_pos_nonneg; lia).
    rewrite (Z.mul_comm 256), Z.rem_mul_r by lia. lia.
Qed.

Lemma byteLength_covers v :
  0 <= v -> v < 256 ^ Z.of_nat (Nat.max 1 (BN.byteLength v)).
Proof.
  intros Hv. unfold BN.byteLength.
  destruct (Z.eqb_spec v 0) as [-> | Hnz]; [cbn; lia |].
  rewrite Z.abs_eq by lia.
  pose proof (Z.log2_nonneg v) as Hl.
  assert (Hq : 0 < (Z.log2 v + 8) / 8) by (apply Z.div_str_pos; lia).
  rewrite Nat2Z.inj_max, Z2Nat.id by lia.
  rewrite Z.max_r by (change (Z.of_nat 1) with 1; lia).
  change 256 with (2 ^ 8). rewrite <- Z.pow_mul_r by lia.
  apply Z.log2_lt_pow2; [lia |].
  pose proof (Z.div_mod (Z.log2 v + 8) 8). pose proof (Z.mod_pos_bound (Z.log2 v + 8) 8).
  lia.
Qed.

Lemma le_sum_rev_toArray_be v :
  0 <= v -> le_sum (rev (BN.toArray_be v)) = v.
Proof.
  intros Hv. unfold BN.toArray_be. rewrite Z.abs_eq by lia.
  rewrite le_sum_rev_be_bytes by lia.
  apply Z.mod_small. split; [lia | now apply byteLength_covers].
Qed.

Lemma toArray_be_length v :
  0 <= v < 2 ^ 64 -> (1 <= length (BN.toArray_be v) <= 8)%nat.
Proof.
  intros Hv. unfold BN.toArray_be. rewrite be_bytes_length.
  split; [lia |].
  unfold BN.byteLength.
  destruct (Z.eqb_spec v 0) as [-> | Hnz]; [cbn; lia |].
  rewrite Z.abs_eq by lia.
  assert (Hl : Z.log2 v < 64) by (apply Z.log2_lt_pow2; lia).
  pose proof (Z.log2_nonneg v).
  assert (Hq : (Z.log2 v + 8) / 8 <= 8).
  { apply Z.lt_succ_r. apply Z.div_lt_upper_bound; lia. }
  apply Nat.max_lub; [lia |].
  apply Nat2Z.inj_le. rewrite Z2Nat.id; [exact Hq |].
  apply Z.div_pos; lia.
Qed.

Lemma toArray_be_nonempty v : BN.toArray_be v <> [].
Proof.
  intros E. apply (f_equal (@length Z)) in E.
  unfold BN.toArray_be in E. rewrite be_bytes_length in E. cbn [length] in E. lia.
Qed.

(** Characters and their codes. *)

Lemma char_eqb_spec (a b : char) : reflect (a = b) (JS.char_eqb a b).
Proof.
  destruct a as [h l], b as [h' l']. cbn [JS.char_eqb].
  destruct (Ascii.eqb_spec h h') as [-> | Hh]; cbn [andb].
  - destruct (Ascii.eqb_spec l l') as [-> | Hl]; constructor; congruence.
  - constructor. congruence.
Qed.

Lemma char_eqb_refl (a : char) : JS.char_eqb a a = true.
Proof. destruct (char_eqb_spec a a); congruence. Qed.

Lemma ascii_code_byte a : 0 <= Z.of_N (N_of_ascii a) < 256.
Proof. pose proof (N_ascii_bounded a). lia. Qed.

Lemma charCode_range c : 0 <= JS.charCode c < 2 ^ 16.
Proof.
  destruct c as [h l]. cbn [JS.charCode].
  pose proof (ascii_code_byte h). pose proof (ascii_code_byte l). lia.
Qed.

Lemma fromCharCode_charCode c : JS.fromCharCode (JS.charCode c) = c.
Proof.
  destruct c as [h l]. unfold JS.fromCharCode. cbn [JS.charCode].
  pose proof (ascii_code_byte h) as Hh. pose proof (ascii_code_byte l) as Hl.
  set (x := Z.of_N (N_of_ascii h)) in *. set (y := Z.of_N (N_of_ascii l)) in *.
  rewrite (Z.mod_small (256 * x + y)) by lia.
  replace ((256 * x + y) / 256) with x by (apply Z.div_unique with y; lia).
  replace ((256 * x + y) mod 256) with y by (apply Z.mod_unique with x; lia).
  subst x y. now rewrite !N2Z.id, !ascii_N_embedding.
Qed.

Lemma charCode_fromCharCode n : 0 <= n < 2 ^ 16 -> JS.charCode (JS.fromCharCode n) = n.
Proof.
  intros Hn. unfold JS.fromCharCode, JS.charCode.
  rewrite (Z.mod_small n) by lia.
  assert (Hq : 0 <= n / 256 < 256).
  { split; [apply Z.div_pos; lia | apply Z.div_lt_upper_bound; lia]. }
  pose proof (Z.mod_pos_bound n 256 ltac:(lia)) as Hr.
  rewrite !N_ascii_embedding by lia. rewrite !Z2N.id by lia.
  pose proof (Z.div_mod n 256). lia.
Qed.

Lemma charCode_fromCharCode_byte b : is_byte b -> JS.charCode (JS.fromCharCode b) = b.
Proof. unfold is_byte. intros Hb. apply charCode_fromCharCode. lia. Qed.

Lemma map_charCode_fromCharCode l :
  Forall is_byte l -> map JS.charCode (map JS.fromCharCode l) = l.
Proof.
  induction 1 as [| b l Hb _ IH]; [reflexivity |].
  cbn [map]. now rewrite charCode_fromCharCode_byte, IH.
Qed.

Lemma map_fromCharCode_charCode s :
  map JS.fromCharCode (map JS.charCode s) = s.
Proof.
  induction s as [| c s IH]; [reflexivity |].
  cbn [map]. now rewrite fromCharCode_charCode, IH.
Qed.

Lemma is_upper_byte c : Symbol.is_upper c = true -> is_byte (JS.charCode c).
Proof.
  unfold Symbol.is_upper, is_byte. intros H. apply andb_true_iff in H as [H1 H2].
  apply Z.leb_le in H1, H2. lia.
Qed.

Lemma fromCharCode_one_byte b : is_byte b -> one_byte (JS.fromCharCode b).
Proof.
  intros Hb. unfold one_byte. rewrite charCode_fromCharCode_byte by exact Hb.
  apply Hb.
Qed.

Lemma charsToSymbolName_one_byte chars :
  Forall is_byte chars -> Forall one_byte (charsToSymbolName chars).
Proof.
  intros H. unfold charsToSymbolName. apply Forall_rev.
  induction H as [| b l Hb _ IH]; cbn [map]; constructor;
    auto using fromCharCode_one_byte.
Qed.

Lemma Forall_removelast_keeps {A} (P : A -> Prop) (l : list A) :
  Forall P l -> Forall P (removelast l).
Proof.
  induction 1 as [| x l Hx Hl IH]; [constructor |].
  cbn [removelast]. destruct l; [constructor |]. constructor; assumption.
Qed.

Lemma toArray_be_Forall v : Forall is_byte (BN.toArray_be v).
Proof. apply be_bytes_Forall. Qed.

(** A name read off a packed value is made of one-byte characters. *)
Lemma toSymbolName_one_byte v : Forall one_byte (toSymbolName v).
Proof.
  unfold toSymbolName. apply charsToSymbolName_one_byte.
  apply Forall_removelast_keeps, toArray_be_Forall.
Qed.

Lemma toRawSymbolCode_loop_firstn n name :
  toRawSymbolCode_loop n name = map JS.charCode (firstn n name).
Proof.
  revert name. induction n as [| n IH]; intros [| c name]; try reflexivity.
  cbn [toRawSymbolCode_loop firstn map]. now rewrite IH.
Qed.

Lemma toRawSymbolCode_firstn name :
  toRawSymbolCode name = map JS.charCode (firstn 7 name).
Proof.
  unfold toRawSymbolCode. rewrite toRawSymbolCode_loop_firstn.
  f_equal. destruct (Nat.le_ge_cases (length name) 7) as [H | H].
  - rewrite Nat.min_l by exact H. now rewrite !firstn_all2 by lia.
  - now rewrite Nat.min_r by exact H.
Qed.

Lemma toRawSymbolCode_length name : (length (toRawSymbolCode name) <= 7)%nat.
Proof.
  rewrite toRawSymbolCode_firstn, length_map, length_firstn. lia.
Qed.

Lemma one_byte_codes s : Forall one_byte s -> Forall is_byte (map JS.charCode s).
Proof.
  induction 1 as [| c s Hc _ IH]; cbn [map]; constructor; [| exact IH].
  unfold one_byte in Hc. unfold is_byte. pose proof (charCode_range c). lia.
Qed.

Lemma upper_one_byte s : forallb Symbol.is_upper s = true -> Forall one_byte s.
Proof.
  induction s as [| c s IH]; cbn [forallb]; intros H; constructor.
  - apply andb_true_iff in H as [H _]. apply is_upper_byte in H. apply H.
  - apply andb_true_iff in H as [_ H]. now apply IH.
Qed.

(** The packed value, in closed form, for a precision that fits a byte
    and a ticker of one-byte characters. *)
Lemma toRawSymbol_le_sum name p :
  is_byte p -> Forall one_byte (firstn 7 name) ->
  toRawSymbol name (JS.Num p) = le_sum (p :: toRawSymbolCode name).
Proof.
  intros Hp Hname. unfold toRawSymbol, UInt64_from.
  change (JS.Num p :: map JS.Num (toRawSymbolCode name))
    with (map JS.Num (p :: toRawSymbolCode name)).
  apply of_array_le_bytes.
  - constructor; [exact Hp |]. rewrite toRawSymbolCode_firstn. now apply one_byte_codes.
  - cbn [length]. pose proof (toRawSymbolCode_length name). lia.
Qed.



Lemma toSymbolPrecision_le_sum p l :
  is_byte p -> toSymbolPrecision (le_sum (p :: l)) = p.
Proof.
  unfold is_byte, toSymbolPrecision, BN.and, UInt64_from. intros Hp.
  change 0xff with (Z.ones 8). rewrite Z.land_ones by lia.
  cbn [le_sum]. change (2 ^ 8) with 256.
  symmetry. apply Z.mod_unique with (le_sum l); lia.
Qed.

Lemma toSymbolPrecision_mod v : toSymbolPrecision v = v mod 256.
Proof.
  unfold toSymbolPrecision, BN.and, UInt64_from.
  change 0xff with (Z.ones 8). now rewrite Z.land_ones by lia.
Qed.

Lemma toSymbolPrecision_toRawSymbol_any name p :
  toSymbolPrecision (toRawSymbol name (JS.Num p)) = p mod 256.
Proof.
  rewrite toSymbolPrecision_mod. unfold toRawSymbol, UInt64_from.
  rewrite of_array_le_low_byte
    by (rewrite length_map; apply toRawSymbolCode_length).
  apply mod256_wrap32.
Qed.

Lemma toSymbolName_le_sum p l :
  is_byte p -> Forall is_byte l ->
  toSymbolName (le_sum (p :: l)) = map JS.fromCharCode (strip_trailing is_zero l).
Proof.
  intros Hp Hl. unfold toSymbolName, charsToSymbolName.
  rewrite toArray_be_le_sum by (constructor; assumption).
  cbn [strip_trailing].
  destruct (strip_trailing is_zero l) as [| c r].
  - destruct (is_zero p); reflexivity.
  - change (rev (p :: c :: r)) with (rev (c :: r) ++ [p]).
    rewrite removelast_last, map_rev, rev_involutive. reflexivity.
Qed.

(** ** Decimal numerals *)

Lemma digit_value_char d :
  0 <= d < 10 -> JS.digit_value (JS.digit_char d) = Some d.
Proof.
  intros Hd. unfold JS.digit_value, JS.digit_char.
  rewrite charCode_fromCharCode by lia.
  destruct (Z.leb_spec 48 (48 + d)); [| lia].
  destruct (Z.leb_spec (48 + d) 57); [| lia].
  cbn [andb]. f_equal. lia.
Qed.

Lemma is_digit_char d : 0 <= d < 10 -> is_digit (JS.digit_char d) = true.
Proof.
  intros Hd. unfold is_digit, JS.digit_char.
  rewrite charCode_fromCharCode by lia.
  apply andb_true_iff. split; apply Z.leb_le; lia.
Qed.

Lemma parse_digits_app a b acc :
  JS.parse_digits (a ++ b) acc =
    match JS.parse_digits a acc with
    | Some x => JS.parse_digits b x
    | None => None
    end.
Proof.
  revert acc. induction a as [| c a IH]; intros acc; [reflexivity |].
  cbn [app JS.parse_digits]. destruct (JS.digit_value c); [apply IH | reflexivity].
Qed.

Lemma decimal_loop_acc fuel n acc :
  JS.decimal_loop fuel n acc = JS.decimal_loop fuel n [] ++ acc.
Proof.
  revert n acc. induction fuel as [| fuel IH]; intros n acc; [reflexivity |].
  cbn [JS.decimal_loop]. destruct (n <? 10); [reflexivity |].
  rewrite (IH _ (_ :: acc)), (IH _ [_]), <- app_assoc. reflexivity.
Qed.

Lemma decimal_loop_S fuel n acc :
  JS.decimal_loop (S fuel) n acc =
    if n <? 10 then JS.digit_char (n mod 10) :: acc
    else JS.decimal_loop fuel (n / 10) (JS.digit_char (n mod 10) :: acc).
Proof. reflexivity. Qed.

(** With enough fuel the numeral reads back as the number. *)
Lemma parse_decimal_loop fuel n acc :
  0 <= n < 10 ^ Z.of_nat (S fuel) ->
  let s := JS.decimal_loop (S fuel) n [] in
  JS.parse_digits s acc = Some (acc * 10 ^ Z.of_nat (length s) + n)
  /\ forallb is_digit s = true /\ s <> [].
Proof.
  revert n acc. induction fuel as [| fuel IH]; intros n acc Hn;
    cbn zeta; rewrite decimal_loop_S;
    assert (Hm : 0 <= n mod 10 < 10) by (apply Z.mod_pos_bound; lia);
    (destruct (Z.ltb_spec n 10) as [Hlt | Hge];
     [ cbn [JS.parse_digits forallb length]; rewrite Z.mod_small by lia;
       rewrite digit_value_char, is_digit_char by lia;
       repeat split; [f_equal; change (Z.of_nat 1) with 1; lia | congruence] | ]).
  - change (10 ^ Z.of_nat 1) with 10 in Hn. lia.
  - rewrite decimal_loop_acc.
    assert (Hq : 0 <= n / 10 < 10 ^ Z.of_nat (S fuel)).
    { rewrite (Nat2Z.inj_succ (S fuel)), Z.pow_succ_r in Hn by lia.
      split; [apply Z.div_pos; lia | apply Z.div_lt_upper_bound; lia]. }
    destruct (IH (n / 10) acc Hq) as (Hp & Hd & Hne).
    cbn zeta in Hp, Hd, Hne.
    rewrite parse_digits_app, Hp. cbn [JS.parse_digits].
    rewrite digit_value_char by lia.
    rewrite forallb_app, Hd, length_app. cbn [forallb length].
    rewrite is_digit_char by lia.
    repeat split.
    + f_equal. rewrite Nat2Z.inj_add. change (Z.of_nat 1) with 1.
      rewrite Z.pow_add_r, Z.pow_1_r by lia.
      pose proof (Z.div_mod n 10). lia.
    + intros E. apply app_eq_nil in E. destruct E; congruence.
Qed.

Lemma decimal_fuel n : 0 <= n -> n < 10 ^ Z.of_nat (S (Z.to_nat (Z.log2 n))).
Proof.
  intros Hn. rewrite Nat2Z.inj_succ, Z2Nat.id by apply Z.log2_nonneg.
  destruct (Z.eq_dec n 0) as [-> | Hnz]; [cbn; lia |].
  apply Z.lt_le_trans with (2 ^ Z.succ (Z.log2 n)).
  - apply Z.log2_spec. lia.
  - apply Z.pow_le_mono_l. pose proof (Z.log2_nonneg n). lia.
Qed.

Lemma parse_decimal n :
  0 <= n ->
  JS.parse_digits (JS.decimal n) 0 = Some n
  /\ forallb is_digit (JS.decimal n) = true /\ JS.decimal n <> [].
Proof.
  intros Hn. unfold JS.decimal.
  destruct (parse_decimal_loop _ n 0 (conj Hn (decimal_fuel n Hn))) as (Hp & Hd & Hne).
  cbn zeta in Hp. rewrite Hp. split; [f_equal; ring | split; assumption].
Qed.

Lemma parse_digits_zeros k s :
  JS.parse_digits (repeat "0"%chr k ++ s) 0 = JS.parse_digits s 0.
Proof.
  induction k as [| k IH]; [reflexivity |].
  cbn [repeat app JS.parse_digits]. exact IH.
Qed.

(** ** Splitting and replacing in texts *)

Lemma split_no_sep sep a : ~ In sep a -> JS.split sep a = [a].
Proof.
  induction a as [| c a IH]; intros Hn; [reflexivity |].
  cbn [JS.split].
  destruct (char_eqb_spec c sep) as [-> | _]; [exfalso; apply Hn; now left |].
  rewrite IH; [reflexivity |]. intros H. apply Hn. now right.
Qed.

Lemma split_app_sep sep a b :
  ~ In sep a -> JS.split sep (a ++ sep :: b) = a :: JS.split sep b.
Proof.
  induction a as [| c a IH]; intros Hn.
  - cbn [app JS.split]. now rewrite char_eqb_refl.
  - cbn [app JS.split].
    destruct (char_eqb_spec c sep) as [-> | _]; [exfalso; apply Hn; now left |].
    rewrite IH; [reflexivity |]. intros H. apply Hn. now right.
Qed.

Lemma replace_first_no c a : ~ In c a -> JS.replace_first c a = a.
Proof.
  induction a as [| x a IH]; intros Hn; [reflexivity |].
  cbn [JS.replace_first].
  destruct (char_eqb_spec x c) as [-> | _]; [exfalso; apply Hn; now left |].
  rewrite IH; [reflexivity |]. intros H. apply Hn. now right.
Qed.

Lemma replace_first_app c a b :
  ~ In c a -> JS.replace_first c (a ++ c :: b) = a ++ b.
Proof.
  induction a as [| x a IH]; intros Hn.
  - cbn [app JS.replace_first]. now rewrite char_eqb_refl.
  - cbn [app JS.replace_first].
    destruct (char_eqb_spec x c) as [-> | _]; [exfalso; apply Hn; now left |].
    rewrite IH; [reflexivity |]. intros H. apply Hn. now right.
Qed.

Lemma forallb_not_In (P : char -> bool) c s :
  forallb P s = true -> P c = false -> ~ In c s.
Proof.
  intros Hall Hc Hin.
  rewrite forallb_forall in Hall. specialize (Hall c Hin). congruence.
Qed.

Lemma strip_map {A B} (f : A -> B) zA zB (l : list A) :
  (forall x, zB (f x) = zA x) ->
  strip_trailing zB (map f l) = map f (strip_trailing zA l).
Proof.
  intros Hz. induction l as [| x l IH]; [reflexivity |].
  cbn [map strip_trailing]. rewrite IH, Hz.
  destruct (strip_trailing zA l); [destruct (zA x) |]; reflexivity.
Qed.

Lemma strip_none {A} z (l : list A) :
  forallb (fun x => negb (z x)) l = true -> strip_trailing z l = l.
Proof.
  induction l as [| x l IH]; [reflexivity |].
  cbn [forallb strip_trailing]. intros H. apply andb_true_iff in H as [Hx Hl].
  rewrite IH by exact Hl.
  destruct l; [| reflexivity].
  apply negb_true_iff in Hx. now rewrite Hx.
Qed.

Lemma is_zero_charCode c : is_zero (JS.charCode c) = is_nul c.
Proof.
  unfold is_zero, is_nul.
  destruct (char_eqb_spec c JS.nul) as [-> | Hne]; [reflexivity |].
  apply Z.eqb_neq. intros E. apply Hne.
  rewrite <- (fromCharCode_charCode c), E. reflexivity.
Qed.

(** What the constructor sees of a ticker packed with a byte precision. *)
Lemma toSymbolName_toRawSymbol name p :
  is_byte p -> Forall one_byte (firstn 7 name) ->
  toSymbolName (toRawSymbol name (JS.Num p)) = packed_ticker name.
Proof.
  intros Hp Hname. rewrite toRawSymbol_le_sum by assumption.
  rewrite toRawSymbolCode_firstn.
  rewrite toSymbolName_le_sum by (auto using one_byte_codes).
  rewrite (strip_map JS.charCode is_nul is_zero) by apply is_zero_charCode.
  apply map_fromCharCode_charCode.
Qed.

Lemma toSymbolPrecision_toRawSymbol name p :
  is_byte p -> toSymbolPrecision (toRawSymbol name (JS.Num p)) = p.
Proof.
  intros Hp. rewrite toSymbolPrecision_toRawSymbol_any.
  unfold is_byte in Hp. apply Z.mod_small. lia.
Qed.

Lemma is_upper_not_nul c : Symbol.is_upper c = true -> negb (is_nul c) = true.
Proof.
  unfold Symbol.is_upper, is_nul. intros H.
  destruct (char_eqb_spec c JS.nul) as [-> | _]; [discriminate H | reflexivity].
Qed.

Lemma pattern_upper s :
  Symbol.symbolNamePattern s = true ->
  (1 <= length s <= 7)%nat /\ forallb Symbol.is_upper s = true.
Proof.
  unfold Symbol.symbolNamePattern. intros H.
  apply andb_true_iff in H as [H Hu]. apply andb_true_iff in H as [H1 H7].
  apply Nat.leb_le in H1, H7. auto.
Qed.

Lemma packed_ticker_valid name :
  Symbol.symbolNamePattern name = true -> packed_ticker name = name.
Proof.
  intros H. apply pattern_upper in H as [[_ H7] Hu].
  unfold packed_ticker. rewrite firstn_all2 by lia.
  apply strip_none. rewrite forallb_forall in *.
  intros c Hc. apply is_upper_not_nul. auto.
Qed.

(** A packed value is rebuilt from the name and the precision read off it. *)
Lemma toRawSymbol_repack v :
  0 <= v < 2 ^ 64 ->
  toRawSymbol (toSymbolName v) (JS.Num (toSymbolPrecision v)) = v.
Proof.
  intros Hv.
  assert (Hp : is_byte (toSymbolPrecision v)).
  { rewrite toSymbolPrecision_mod. unfold is_byte. apply Z.mod_pos_bound. lia. }
  rewrite toRawSymbol_le_sum
    by (first [exact Hp | apply Forall_firstn_keeps, toSymbolName_one_byte]).
  pose proof (toArray_be_length v Hv) as Hlen.
  pose proof (le_sum_rev_toArray_be v (proj1 Hv)) as Hsum.
  pose proof (be_bytes_Forall (Nat.max 1 (BN.byteLength v)) (Z.abs v)) as Hb.
  fold (BN.toArray_be v) in Hb.
  destruct (exists_last (toArray_be_nonempty v)) as (hi & lo & E).
  rewrite E in Hsum, Hlen, Hb.
  rewrite rev_app_distr in Hsum. cbn [rev app] in Hsum.
  apply Forall_app in Hb as [Hhi Hlo]. apply Forall_cons_iff in Hlo as [Hlo _].
  rewrite length_app in Hlen. cbn [length] in Hlen.
  assert (Eprec : toSymbolPrecision v = lo).
  { rewrite <- Hsum at 1. now apply toSymbolPrecision_le_sum. }
  assert (Ename : toRawSymbolCode (toSymbolName v) = rev hi).
  { unfold toSymbolName, charsToSymbolName. rewrite E, removelast_last.
    rewrite toRawSymbolCode_firstn.
    rewrite firstn_all2 by (rewrite length_rev, length_map; lia).
    rewrite <- map_rev. apply map_charCode_fromCharCode.
    apply Forall_rev. exact Hhi. }
  now rewrite Eprec, Ename.
Qed.

(** ** The Symbol constructor *)

Lemma Symbol_new_cases v :
  (Symbol.maxPrecision < toSymbolPrecision v /\ Symbol.new v = Err PrecisionTooLarge)
  \/ (toSymbolPrecision v <= Symbol.maxPrecision
      /\ Symbol.symbolNamePattern (toSymbolName v) = false
      /\ Symbol.new v = Err NameNotUppercase)
  \/ (toSymbolPrecision v <= Symbol.maxPrecision
      /\ Symbol.symbolNamePattern (toSymbolName v) = true
      /\ Symbol.new v = Ok (Symbol.mk v)).
Proof.
  unfold Symbol.new.
  destruct (Z.ltb_spec Symbol.maxPrecision (toSymbolPrecision v)) as [H | H];
    [left; auto |].
  right. destruct (Symbol.symbolNamePattern (toSymbolName v)); cbn [negb]; auto.
Qed.

Lemma Symbol_new_Ok v s :
  Symbol.new v = Ok s ->
  s = Symbol.mk v
  /\ toSymbolPrecision v <= Symbol.maxPrecision
  /\ Symbol.symbolNamePattern (toSymbolName v) = true.
Proof.
  intros H.
  destruct (Symbol_new_cases v) as [(_ & E) | [(_ & _ & E) | (Hp & Hn & E)]];
    rewrite E in H; try discriminate.
  injection H as <-. auto.
Qed.

Lemma toSymbolPrecision_byte v : is_byte (toSymbolPrecision v).
Proof.
  rewrite toSymbolPrecision_mod. unfold is_byte. apply Z.mod_pos_bound. lia.
Qed.

Lemma valid_symbol_range s : valid_symbol s -> 0 <= Symbol.value s < 2 ^ 64.
Proof.
  intros [Hnn Hok]. split; [exact Hnn |].
  apply Symbol_new_Ok in Hok as (_ & _ & Hpat).
  apply pattern_upper in Hpat as [[_ H7] _].
  set (v := Symbol.value s) in *.
  unfold toSymbolName, charsToSymbolName in H7.
  rewrite length_rev, length_map in H7.
  destruct (exists_last (toArray_be_nonempty v)) as (hi & lo & E).
  rewrite E, removelast_last in H7.
  pose proof (le_sum_rev_toArray_be v Hnn) as Hsum.
  pose proof (be_bytes_Forall (Nat.max 1 (BN.byteLength v)) (Z.abs v)) as Hb.
  fold (BN.toArray_be v) in Hb.
  rewrite <- Hsum.
  apply Forall_rev in Hb. apply le_sum_bound in Hb.
  rewrite length_rev, E, length_app in Hb. cbn [length] in Hb.
  apply Z.lt_le_trans with (256 ^ Z.of_nat (length hi + 1)); [rewrite E; lia |].
  change (2 ^ 64) with (256 ^ 8). apply Z.pow_le_mono_r; lia.
Qed.

Lemma valid_symbol_facts s :
  valid_symbol s ->
  0 <= Symbol.precision s <= 18
  /\ Symbol.symbolNamePattern (Symbol.name s) = true
  /\ Symbol.fromParts (Symbol.name s) (JS.Num (Symbol.precision s)) = Ok s.
Proof.
  intros Hv. pose proof (valid_symbol_range s Hv) as Hr.
  destruct Hv as [Hnn Hok].
  pose proof (Symbol_new_Ok _ _ Hok) as (_ & Hp & Hpat).
  pose proof (toSymbolPrecision_byte (Symbol.value s)) as Hb.
  unfold Symbol.precision, Symbol.name, Symbol.fromParts, Symbol.maxPrecision, is_byte in *.
  rewrite toRawSymbol_repack by exact Hr.
  repeat split; try assumption; lia.
Qed.

(** Packing a well-formed ticker with a precision of at most 18 succeeds. *)
Lemma fromParts_valid name p :
  0 <= p <= 18 -> Symbol.symbolNamePattern name = true ->
  let s := Symbol.mk (toRawSymbol name (JS.Num p)) in
  Symbol.fromParts name (JS.Num p) = Ok s
  /\ Symbol.name s = name /\ Symbol.precision s = p /\ valid_symbol s.
Proof.
  intros Hp Hpat s.
  assert (Hb : is_byte p) by (unfold is_byte; lia).
  assert (H1 : Forall one_byte (firstn 7 name)).
  { apply Forall_firstn_keeps, upper_one_byte. now apply pattern_upper in Hpat. }
  assert (En : Symbol.name s = name).
  { unfold Symbol.name, s; cbn [Symbol.value].
    rewrite toSymbolName_toRawSymbol by assumption. now apply packed_ticker_valid. }
  assert (Ep : Symbol.precision s = p).
  { unfold Symbol.precision, s; cbn [Symbol.value].
    now apply toSymbolPrecision_toRawSymbol. }
  assert (Ok_ : Symbol.fromParts name (JS.Num p) = Ok s).
  { unfold Symbol.fromParts.
    destruct (Symbol_new_cases (toRawSymbol name (JS.Num p)))
      as [(H & _) | [(_ & H & _) | (_ & _ & E)]].
    - rewrite toSymbolPrecision_toRawSymbol in H by exact Hb.
      unfold Symbol.maxPrecision in H. lia.
    - rewrite toSymbolName_toRawSymbol, packed_ticker_valid in H by assumption.
      congruence.
    - exact E. }
  split; [exact Ok_ |]. split; [exact En |]. split; [exact Ep |].
  split; [| exact Ok_].
  cbn [Symbol.value s]. rewrite toRawSymbol_le_sum by assumption.
  apply le_sum_bound. constructor; [exact Hb |].
  rewrite toRawSymbolCode_firstn. now apply one_byte_codes.
Qed.

Lemma strip_keeps {A} z (c : A) l :
  In c l -> z c = false -> In c (strip_trailing z l).
Proof.
  induction l as [| x l IH]; [contradiction |].
  intros [-> | Hin] Hz; cbn [strip_trailing].
  - destruct (strip_trailing z l); [rewrite Hz |]; now left.
  - specialize (IH Hin Hz).
    destruct (strip_trailing z l); [contradiction | now right].
Qed.

Lemma fromParts_byte_cases name p :
  is_byte p -> Forall one_byte (firstn 7 name) ->
  Symbol.fromParts name (JS.Num p) =
    if 18 <? p then Err PrecisionTooLarge
    else if Symbol.symbolNamePattern (packed_ticker name)
         then Ok (Symbol.mk (toRawSymbol name (JS.Num p)))
         else Err NameNotUppercase.
Proof.
  intros Hb H1. unfold Symbol.fromParts, Symbol.new, Symbol.maxPrecision.
  rewrite toSymbolPrecision_toRawSymbol, toSymbolName_toRawSymbol by assumption.
  destruct (18 <? p); [reflexivity |].
  now destruct (Symbol.symbolNamePattern (packed_ticker name)).
Qed.

Lemma toRawSymbolCode_clamp name :
  toRawSymbolCode (firstn 7 name) = toRawSymbolCode name.
Proof.
  rewrite !toRawSymbolCode_firstn. now rewrite firstn_firstn.
Qed.

Lemma parseInt_precision p :
  0 <= p <= 18 -> JS.parseInt (JS.Number_toString (JS.Num p)) = JS.Num p.
Proof.
  intros Hp.
  assert (H : In p [0;1;2;3;4;5;6;7;8;9;10;11;12;13;14;15;16;17;18]) by (cbn; lia).
  cbn [In] in H. repeat (destruct H as [<- | H]; [reflexivity |]). contradiction.
Qed.

Lemma Number_toString_digits p :
  0 <= p -> forallb is_digit (JS.Number_toString (JS.Num p)) = true.
Proof.
  intros Hp. unfold JS.Number_toString.
  destruct (Z.ltb_spec p 0); [lia |]. now apply parse_decimal.
Qed.

Lemma Symbol_from_string p name :
  0 <= p <= 18 -> ~ In ","%chr name ->
  Symbol.from (Symbol.OfString (JS.Number_toString (JS.Num p) ++ ","%chr :: name))
  = Symbol.fromParts name (JS.Num p).
Proof.
  intros Hp Hn. unfold Symbol.from.
  rewrite split_app_sep, (split_no_sep _ name Hn).
  - now rewrite parseInt_precision.
  - apply forallb_not_In with is_digit; [| reflexivity].
    apply Number_toString_digits. lia.
Qed.

(** Bytes on the wire. *)

Lemma le_bytes_length n v : length (BN.le_bytes n v) = n.
Proof.
  revert v. induction n as [| n IH]; intros v; [reflexivity |].
  cbn [BN.le_bytes length]. now rewrite IH.
Qed.

Lemma le_bytes_Forall n v : Forall is_byte (BN.le_bytes n v).
Proof.
  revert v. induction n as [| n IH]; intros v; [constructor |].
  cbn [BN.le_bytes]. constructor; [| apply IH].
  unfold is_byte. apply Z.mod_pos_bound. lia.
Qed.

Lemma le_sum_le_bytes n v :
  0 <= v -> le_sum (BN.le_bytes n v) = v mod 256 ^ Z.of_nat n.
Proof.
  revert v. induction n as [| n IH]; intros v Hv.
  - cbn. now rewrite Z.mod_1_r.
  - cbn [BN.le_bytes le_sum]. rewrite IH by (apply Z.div_pos; lia).
    rewrite Nat2Z.inj_succ, Z.pow_succ_r by lia.
    assert (Hp : 0 < 256 ^ Z.of_nat n) by (apply Z.pow_pos_nonneg; lia).
    rewrite Z.rem_mul_r by lia. lia.
Qed.

Lemma UInt64_codec v rest :
  0 <= v < 2 ^ 64 ->
  UInt64_fromABI (UInt64_toABI v [] ++ rest) = Ok (v, rest).
Proof.
  intros Hv. unfold UInt64_fromABI, UInt64_toABI, UInt64_from.
  cbn [app].
  assert (Hlen : length (BN.le_bytes 8 v) = 8%nat) by apply le_bytes_length.
  destruct (Nat.ltb_spec (length (BN.le_bytes 8 v ++ rest)) 8) as [H | _].
  { rewrite length_app in H. lia. }
  rewrite firstn_app, skipn_app, Hlen.
  rewrite firstn_all2, skipn_all2 by lia.
  cbn [Nat.sub firstn skipn app]. rewrite app_nil_r.
  rewrite of_array_le_bytes by (auto using le_bytes_Forall; lia).
  rewrite le_sum_le_bytes by lia.
  change (256 ^ Z.of_nat 8) with (2 ^ 64). now rewrite Z.mod_small by lia.
Qed.

(** ** Symbol and SymbolCode: validation and round trips *)

Lemma construct_new src :
  construct src =
    match packed_value src with
    | Some v => Symbol.new v
    | None => construct src
    end.
Proof.
  destruct src as [v | s | name p | d]; cbn [construct packed_value]; try reflexivity.
  - unfold Symbol.from.
    destruct (JS.split "," s) as [| p [| n [| ? ?]]]; reflexivity.
  - unfold Symbol.fromABI.
    destruct (UInt64_fromABI d) as [[v rest] | e]; cbn [bind fst snd]; [| reflexivity].
    now destruct (Symbol.new v).
Qed.

(** C3: every path that produces a new Symbol (from a packed integer, from
    a string, from parts, from ABI bytes) hands its packed integer to the
    validating constructor: a low byte above 18 fails with the precision
    error; otherwise a ticker name (the bytes above the low byte, read
    back as text) that does not match [^[A-Z]{1,7}$] fails with the charset
    error; and a Symbol is produced only when both checks pass.  A path
    that does not reach the constructor (a text that does not split in two
    at the comma, a decoder short of 8 bytes) produces no Symbol.  In
    particular [Symbol.fromABI] rejects malformed symbol bytes. *)
Theorem Symbol_paths_validate (src : SymbolSource) :
  match packed_value src with
  | Some v =>
      (18 < v mod 256 -> construct src = Err PrecisionTooLarge)
      /\ (v mod 256 <= 18 -> Symbol.symbolNamePattern (toSymbolName v) = false ->
          construct src = Err NameNotUppercase)
      /\ (forall s, construct src = Ok s ->
            Symbol.value s = v /\ Symbol.precision s <= 18
            /\ Symbol.symbolNamePattern (Symbol.name s) = true)
  | None =>
      construct src = Err InvalidSymbolString \/ construct src = Err DecodeUnderflow
  end
  /\ (forall d, src = FromABI d -> Forall is_byte d -> (8 <= length d)%nat ->
        packed_value src = Some (le_sum (firstn 8 d))).
Proof.
  split; cycle 1.
  { intros d -> Hb Hlen. cbn [packed_value]. unfold UInt64_fromABI, UInt64_from.
    destruct (Nat.ltb_spec (length d) 8); [lia |]. cbn [fst].
    rewrite of_array_le_bytes; [reflexivity | now apply Forall_firstn_keeps |].
    rewrite length_firstn. lia. }
  rewrite (construct_new src).
  destruct (packed_value src) as [v |] eqn:E.
  - rewrite <- toSymbolPrecision_mod.
    destruct (Symbol_new_cases v) as [(Hp & ->) | [(Hp & Hn & ->) | (Hp & Hn & ->)]];
      unfold Symbol.maxPrecision in Hp;
      (split; [intros; first [reflexivity | lia] |]);
      (split; [intros; first [reflexivity | lia | congruence] |]);
      intros s Hs; try discriminate.
    injection Hs as <-. unfold Symbol.precision, Symbol.name. cbn [Symbol.value]. auto.
  - destruct src as [v | s | name p | d]; cbn [packed_value] in E; try discriminate.
    + left. cbn [construct]. unfold Symbol.from.
      destruct (JS.split "," s) as [| p [| n [| ? ?]]]; try reflexivity; discriminate.
    + right. cbn [construct]. unfold Symbol.fromABI.
      unfold UInt64_fromABI in *.
      destruct (length d <? 8)%nat; [reflexivity | discriminate].
Qed.

(** C2 fails as stated: the ticker ABCDEFGH has 8 characters, and
    [Symbol.fromParts] packs its first 7 and succeeds.  (Nor is the
    charset error what every bad name gets: with precision 19 the empty
    name fails with the precision error; a NUL at the end of a name packs
    to a zero byte that is not read back; and of a character whose code is
    above 255 the high byte is OR-ed into the byte of the next character,
    so that U+0141 followed by A is packed as AA.) *)
Lemma fromParts_clamps_ABCDEFGH :
  outside_charset "ABCDEFGH"
  /\ Symbol.fromParts "ABCDEFGH" (JS.Num 4) = Ok (Symbol.mk 5135868584551137540)
  /\ Symbol.name (Symbol.mk 5135868584551137540) = "ABCDEFG"
  /\ Symbol.fromParts "ABCDEFGH" (JS.Num 4) <> Err NameNotUppercase
  /\ Symbol.fromParts "" (JS.Num 19) = Err PrecisionTooLarge
  /\ Symbol.fromParts ["A"%chr; JS.nul] (JS.Num 4) = Ok (Symbol.mk 16644)
  /\ Symbol.name (Symbol.mk 16644) = "A"
  /\ outside_charset [JS.fromCharCode 0x141; "A"%chr]
  /\ Symbol.fromParts [JS.fromCharCode 0x141; "A"%chr] (JS.Num 0) = Ok (Symbol.mk 0x414100)
  /\ Symbol.name (Symbol.mk 0x414100) = "AA".
Proof.
  split; [right; left; cbn; lia |].
  split; [reflexivity |]. split; [reflexivity |]. split; [discriminate |].
  split; [reflexivity |]. split; [reflexivity |]. split; [reflexivity |].
  split; [| split; reflexivity].
  right; right. exists (JS.fromCharCode 0x141). split; [now left | reflexivity].
Qed.

Lemma forallb_false_ex {A} (f : A -> bool) (l : list A) :
  forallb f l = false <-> exists x, In x l /\ f x = false.
Proof.
  induction l as [| y l IH]; cbn [forallb In].
  - split; [discriminate | intros (x & [] & _)].
  - rewrite andb_false_iff, IH. split.
    + intros [H | (x & Hin & Hx)]; eauto.
    + intros (x & [-> | Hin] & Hx); eauto.
Qed.

(** What [Symbol.fromParts] makes of the first 7 characters of a name,
    when they are one-byte characters other than NUL. *)
Lemma fromParts_text_cases name p :
  0 <= p <= 18 -> Forall one_byte (firstn 7 name) -> ~ In JS.nul (firstn 7 name) ->
  packed_ticker name = firstn 7 name
  /\ Symbol.fromParts name (JS.Num p) =
       if negb (match name with [] => true | _ => false end)
          && forallb Symbol.is_upper (firstn 7 name)
       then Ok (Symbol.mk (toRawSymbol name (JS.Num p)))
       else Err NameNotUppercase.
Proof.
  intros Hp H1 Hnul.
  assert (Hb : is_byte p) by (unfold is_byte; lia).
  assert (Hcases := fromParts_byte_cases name p Hb H1).
  destruct (Z.ltb_spec 18 p) as [? | _]; [lia |].
  assert (Hpacked : packed_ticker name = firstn 7 name).
  { unfold packed_ticker. apply strip_none. apply forallb_forall.
    intros c Hc. apply negb_true_iff. unfold is_nul.
    destruct (char_eqb_spec c JS.nul) as [-> | _]; [| reflexivity].
    exfalso. now apply Hnul. }
  split; [exact Hpacked |].
  rewrite Hpacked in Hcases. rewrite Hcases.
  unfold Symbol.symbolNamePattern.
  assert (Hlen : (length (firstn 7 name) <=? 7)%nat = true)
    by (apply Nat.leb_le; rewrite length_firstn; lia).
  rewrite Hlen, andb_true_r. now destruct name.
Qed.

(** C2, amended: for a name whose first 7 characters are one-byte
    characters (codes below 256) other than NUL and a precision in 0..18,
    [Symbol.fromParts] fails with the charset error exactly when the name
    is empty or one of its first 7 characters is outside A-Z.  The ticker
    is clamped to its first 7 characters by design
    ([Math.min(name.length, 7)]): what lies beyond them is dropped, not
    rejected, and a longer name whose first 7 characters are A-Z makes a
    Symbol named by those 7.  [Symbol.from] on the text "p,NAME" does the
    same when NAME has no comma.  The charset check reads the packed
    bytes, not the text: [new BN(array, 'le')] ORs the high byte of a
    character of code above 255 into the byte of the character after it,
    so [Symbol.fromParts] of U+0141 followed by A, precision 0, is the
    Symbol named AA. *)
Theorem Symbol_fromParts_charset :
  (forall (name : jsstring) (p : Z),
      0 <= p <= 18 ->
      Forall one_byte (firstn 7 name) -> ~ In JS.nul (firstn 7 name) ->
      (Symbol.fromParts name (JS.Num p) = Err NameNotUppercase
         <-> name = [] \/ exists c, In c (firstn 7 name) /\ Symbol.is_upper c = false)
      /\ (name <> [] -> forallb Symbol.is_upper (firstn 7 name) = true ->
           exists s, Symbol.fromParts name (JS.Num p) = Ok s
                     /\ Symbol.name s = firstn 7 name /\ Symbol.precision s = p))
  /\ (forall (name : jsstring) (p : JS.number),
        Symbol.fromParts name p = Symbol.fromParts (firstn 7 name) p)
  /\ (forall (name : jsstring) (p : Z),
        0 <= p <= 18 -> ~ In ","%chr name ->
        Symbol.from (Symbol.OfString (JS.Number_toString (JS.Num p) ++ ","%chr :: name))
        = Symbol.fromParts name (JS.Num p))
  /\ (exists s, Symbol.fromParts "ABCDEFGH" (JS.Num 4) = Ok s
                /\ Symbol.name s = "ABCDEFG")
  /\ (exists s, Symbol.fromParts [JS.fromCharCode 0x141; "A"%chr] (JS.Num 0) = Ok s
                /\ Symbol.name s = "AA"
                /\ Symbol.is_upper (JS.fromCharCode 0x141) = false).
Proof.
  split; [| split; [| split; [| split]]].
  - intros name p Hp H1 Hnul.
    destruct (fromParts_text_cases name p Hp H1 Hnul) as [Hpacked Hcases].
    assert (Hb : is_byte p) by (unfold is_byte; lia).
    split.
    + rewrite Hcases. split.
      * intros H. destruct name as [| c0 name0]; [now left | right].
        cbn [negb andb] in H.
        destruct (forallb Symbol.is_upper (firstn 7 (c0 :: name0))) eqn:Eu;
          [discriminate H |].
        now apply forallb_false_ex.
      * intros [-> | Hex]; [reflexivity |].
        apply forallb_false_ex in Hex. rewrite Hex, andb_false_r. reflexivity.
    + intros Hne Hup. rewrite Hcases, Hup.
      destruct name as [| c0 name0]; [congruence |]. cbn [negb andb].
      eexists. split; [reflexivity |].
      unfold Symbol.name, Symbol.precision. cbn [Symbol.value].
      now rewrite toSymbolName_toRawSymbol, toSymbolPrecision_toRawSymbol, Hpacked.
  - intros name p. unfold Symbol.fromParts, toRawSymbol.
    now rewrite toRawSymbolCode_clamp.
  - intros name p Hp Hn. apply Symbol_from_string; assumption.
  - eexists. split; reflexivity.
  - eexists. repeat split.
Qed.

Lemma Symbol_fromParts_charset_witness :
  (Symbol.fromParts "EoS" (JS.Num 4) = Err NameNotUppercase)
  /\ exists s, Symbol.fromParts "ABCDEFGH" (JS.Num 4) = Ok s
               /\ Symbol.name s = firstn 7 (lit "ABCDEFGH") /\ Symbol.precision s = 4.
Proof.
  assert (Hp : 0 <= 4 <= 18) by lia.
  assert (H1 : forall name : jsstring,
             forallb (fun c => (0 <? JS.charCode c) && (JS.charCode c <? 256))
                     (firstn 7 name) = true ->
             Forall one_byte (firstn 7 name) /\ ~ In JS.nul (firstn 7 name)).
  { intros name H. rewrite forallb_forall in H. split.
    - apply Forall_forall. intros c Hc. specialize (H c Hc).
      apply andb_true_iff in H as [_ H]. now apply Z.ltb_lt in H.
    - intros Hin. specialize (H _ Hin). discriminate H. }
  split.
  - destruct (H1 (lit "EoS") eq_refl) as [Ha Hb].
    apply (proj1 (proj1 Symbol_fromParts_charset "EoS" 4 Hp Ha Hb)).
    right. exists "o"%chr. split; [cbn; tauto | reflexivity].
  - destruct (H1 (lit "ABCDEFGH") eq_refl) as [Ha Hb].
    apply (proj2 (proj1 Symbol_fromParts_charset "ABCDEFGH" 4 Hp Ha Hb));
      [discriminate | reflexivity].
Defined.

(** C4: for a precision p in 0..18 and a ticker t matching [A-Z]{1,7},
    [Symbol.fromParts(t, p)] is a Symbol whose [toString()] is "p,t";
    [Symbol.from] parses that text back to the same packed value; and the
    8 bytes [toABI] writes are read back by [fromABI] as the same packed
    value (whatever follows them in the buffer is left for the next
    read). *)
Theorem Symbol_roundtrip (t : jsstring) (p : Z) :
  0 <= p <= 18 -> Symbol.symbolNamePattern t = true ->
  exists s,
    Symbol.fromParts t (JS.Num p) = Ok s
    /\ Symbol.toString s = JS.Number_toString (JS.Num p) ++ ","%chr :: t
    /\ Symbol.from (Symbol.OfString (Symbol.toString s)) = Ok s
    /\ length (Symbol.toABI s []) = 8%nat
    /\ forall rest, Symbol.fromABI (Symbol.toABI s [] ++ rest) = Ok (s, rest).
Proof.
  intros Hp Hpat.
  destruct (fromParts_valid t p Hp Hpat) as (Hok & Hname & Hprec & Hvalid).
  set (s := Symbol.mk (toRawSymbol t (JS.Num p))) in *.
  exists s.
  assert (Hstr : Symbol.toString s = JS.Number_toString (JS.Num p) ++ ","%chr :: t).
  { unfold Symbol.toString. now rewrite Hname, Hprec. }
  split; [exact Hok |]. split; [exact Hstr |]. split; [| split].
  - rewrite Hstr, Symbol_from_string; [exact Hok | exact Hp |].
    apply pattern_upper in Hpat as [_ Hu].
    apply forallb_not_In with Symbol.is_upper; [exact Hu | reflexivity].
  - unfold Symbol.toABI, UInt64_toABI. cbn [app]. apply le_bytes_length.
  - intros rest. unfold Symbol.fromABI, Symbol.toABI.
    rewrite UInt64_codec by (apply valid_symbol_range; exact Hvalid).
    cbn [bind fst snd]. destruct Hvalid as [_ ->]. reflexivity.
Qed.

Lemma Symbol_roundtrip_witness :
  0 <= 4 <= 18 /\ Symbol.symbolNamePattern "EOS" = true
  /\ exists s,
       Symbol.fromParts "EOS" (JS.Num 4) = Ok s
       /\ Symbol.toString s = JS.Number_toString (JS.Num 4) ++ ","%chr :: lit "EOS"
       /\ Symbol.from (Symbol.OfString (Symbol.toString s)) = Ok s
       /\ length (Symbol.toABI s []) = 8%nat
       /\ forall rest, Symbol.fromABI (Symbol.toABI s [] ++ rest) = Ok (s, rest).
Proof.
  split; [lia |]. split; [reflexivity |].
  apply (Symbol_roundtrip "EOS" 4); [lia | reflexivity].
Defined.





(** ** Asset: rendering and reading back *)

Lemma unshift_zeros_spec fuel p digits :
  p + 1 - Z.of_nat (length digits) <= Z.of_nat fuel ->
  Asset.unshift_zeros fuel p digits
  = zeros (Z.to_nat (p + 1 - Z.of_nat (length digits))) ++ digits.
Proof.
  revert digits. induction fuel as [| fuel IH]; intros digits Hf.
  - cbn [Asset.unshift_zeros].
    replace (Z.to_nat (p + 1 - Z.of_nat (length digits))) with O by lia.
    reflexivity.
  - cbn [Asset.unshift_zeros].
    destruct (Z.leb_spec (Z.of_nat (length digits)) p) as [Hle | Hgt].
    + rewrite IH by (cbn [length]; lia). cbn [length].
      replace (Z.to_nat (p + 1 - Z.of_nat (length digits)))
        with (S (Z.to_nat (p + 1 - Z.of_nat (S (length digits))))) by lia.
      unfold zeros. cbn [repeat]. rewrite repeat_cons, <- app_assoc. reflexivity.
    + replace (Z.to_nat (p + 1 - Z.of_nat (length digits))) with O by lia.
      reflexivity.
Qed.

Lemma is_digit_not_minus c : is_digit c = true -> JS.char_eqb c "-" = false.
Proof.
  intros H. destruct (char_eqb_spec c "-"%chr) as [-> | _]; [discriminate H | reflexivity].
Qed.

Lemma zeros_digits k : forallb is_digit (zeros k) = true.
Proof. induction k; [reflexivity | exact IHk]. Qed.

Lemma padded_digits_facts u p :
  0 <= p ->
  let P := padded_digits u p in
  forallb is_digit P = true
  /\ (Z.to_nat p < length P)%nat
  /\ length P = Nat.max (length (JS.decimal (Z.abs u))) (S (Z.to_nat p))
  /\ JS.parse_digits P 0 = Some (Z.abs u).
Proof.
  intros Hp P. subst P. unfold padded_digits.
  destruct (parse_decimal (Z.abs u) (Z.abs_nonneg u)) as (Hparse & Hdig & Hne).
  set (d := JS.decimal (Z.abs u)) in *.
  assert (Hlen : (1 <= length d)%nat) by (destruct d; [congruence | cbn [length]; lia]).
  split; [| split; [| split]].
  - rewrite forallb_app, zeros_digits, Hdig. reflexivity.
  - rewrite length_app. unfold zeros. rewrite repeat_length. lia.
  - rewrite length_app. unfold zeros. rewrite repeat_length. lia.
  - unfold zeros. rewrite parse_digits_zeros. exact Hparse.
Qed.

(** The text [Asset.toString] renders, piece by piece. *)
Lemma toString_pieces (a : Asset.t) :
  let u := Asset.units a in
  let p := Symbol.precision (Asset.symbol a) in
  let P := padded_digits u p in
  let n := (length P - Z.to_nat p)%nat in
  Asset.toString a
  = sign_text u ++ firstn n P ++ (if 0 <? p then "."%chr :: skipn n P else [])
      ++ " "%chr :: Symbol.name (Asset.symbol a).
Proof.
  intros u p P n.
  assert (Hp : 0 <= p).
  { subst p. unfold Symbol.precision. apply toSymbolPrecision_byte. }
  destruct (parse_decimal (Z.abs u) (Z.abs_nonneg u)) as (_ & Hdig & Hne).
  assert (Hsign : Asset.detach_sign (Int64_toString u) = (u <? 0, JS.decimal (Z.abs u))).
  { unfold Asset.detach_sign, Int64_toString, BN.toString.
    destruct (Z.ltb_spec u 0) as [Hneg | Hpos].
    - rewrite char_eqb_refl. now rewrite Z.abs_neq by lia.
    - rewrite Z.abs_eq in * by lia.
      destruct (JS.decimal u) as [| c r]; [congruence |].
      cbn [forallb] in Hdig. apply andb_true_iff in Hdig as [Hc _].
      now rewrite (is_digit_not_minus c Hc). }
  unfold Asset.toString. fold u. fold p. rewrite Hsign.
  rewrite unshift_zeros_spec by lia.
  fold (padded_digits u p). fold P.
  pose proof (padded_digits_facts u p Hp) as (_ & Hlt & _ & _). fold P in Hlt.
  unfold sign_text, Asset.splice_insert.
  replace (Z.to_nat (Z.of_nat (length P) - p)) with n by (subst n; lia).
  destruct (Z.ltb_spec 0 p) as [Hpos | Hzero].
  - destruct (u <? 0); cbn [app]; now rewrite <- ?app_assoc.
  - assert (p = 0) by lia.
    replace n with (length P) by (subst n; lia).
    rewrite firstn_all. destruct (u <? 0); cbn [app]; now rewrite ?app_nil_r.
Qed.

Lemma parse_digits_value s :
  forallb is_digit s = true ->
  exists w, 0 <= w < 10 ^ Z.of_nat (length s)
            /\ forall acc, JS.parse_digits s acc = Some (acc * 10 ^ Z.of_nat (length s) + w).
Proof.
  induction s as [| c s IH]; intros Hd.
  - exists 0. split; [cbn; lia |]. intros acc. cbn. f_equal. lia.
  - cbn [forallb] in Hd. apply andb_true_iff in Hd as [Hc Hs].
    destruct (IH Hs) as (w & Hw & Hparse).
    unfold is_digit in Hc. apply andb_true_iff in Hc as [Hlo Hhi].
    apply Z.leb_le in Hlo, Hhi.
    set (d := JS.charCode c - 48).
    exists (d * 10 ^ Z.of_nat (length s) + w).
    cbn [length]. rewrite Nat2Z.inj_succ, Z.pow_succ_r by lia.
    split; [subst d; nia |].
    intros acc. cbn [JS.parse_digits]. unfold JS.digit_value.
    destruct (Z.leb_spec 48 (JS.charCode c)); [| lia].
    destruct (Z.leb_spec (JS.charCode c) 57); [| lia].
    cbn [andb]. rewrite Hparse. f_equal. subst d. ring.
Qed.

Lemma parse_digits_split x y v :
  forallb is_digit x = true -> forallb is_digit y = true ->
  JS.parse_digits (x ++ y) 0 = Some v ->
  JS.parse_digits x 0 = Some (v / 10 ^ Z.of_nat (length y))
  /\ JS.parse_digits y 0 = Some (v mod 10 ^ Z.of_nat (length y)).
Proof.
  intros Hx Hy Hv.
  destruct (parse_digits_value x Hx) as (wx & Hwx & Hpx).
  destruct (parse_digits_value y Hy) as (wy & Hwy & Hpy).
  rewrite parse_digits_app, Hpx, Hpy in Hv. injection Hv as <-.
  rewrite Hpx, Hpy. cbn [Z.mul].
  assert (Hpow : 0 < 10 ^ Z.of_nat (length y)) by (apply Z.pow_pos_nonneg; lia).
  split; f_equal.
  - apply Z.div_unique with wy; lia.
  - apply Z.mod_unique with (0 + wx); lia.
Qed.

Lemma Int64_from_string_signed u p :
  0 <= p -> - 2 ^ 63 <= u < 2 ^ 63 ->
  Int64_from_string (sign_text u ++ padded_digits u p) = Ok u.
Proof.
  intros Hp Hu.
  destruct (padded_digits_facts u p Hp) as (Hdig & Hlen & _ & Hparse).
  cbn zeta in *. unfold Int64_from_string, sign_text.
  destruct (padded_digits u p) as [| c r] eqn:E; [cbn [length] in Hlen; lia |].
  destruct (Z.ltb_spec u 0) as [Hneg | Hpos]; cbn [app].
  - rewrite char_eqb_refl, Hparse. cbn [option_map].
    replace (- Z.abs u) with u by lia.
    destruct (Z.leb_spec (- 2 ^ 63) u); [| lia].
    destruct (Z.ltb_spec u (2 ^ 63)); [reflexivity | lia].
  - cbn [forallb] in Hdig. apply andb_true_iff in Hdig as [Hc _].
    rewrite (is_digit_not_minus c Hc), Hparse.
    replace (Z.abs u) with u by lia.
    destruct (Z.leb_spec (- 2 ^ 63) u); [| lia].
    destruct (Z.ltb_spec u (2 ^ 63)); [reflexivity | lia].
Qed.

Lemma In_app_not {A} (c : A) x y : ~ In c x -> ~ In c y -> ~ In c (x ++ y).
Proof. intros Hx Hy H. apply in_app_or in H. tauto. Qed.

Lemma sign_text_not_In c u : c <> "-"%chr -> ~ In c (sign_text u).
Proof.
  intros Hc. unfold sign_text. destruct (u <? 0); cbn [In]; intuition congruence.
Qed.

Lemma digits_not_In c s :
  forallb is_digit s = true -> is_digit c = false -> ~ In c s.
Proof. apply forallb_not_In. Qed.

(** The amount text of a rendered asset reads back as its precision and
    its digits. *)
Lemma amount_text_reads_back u p :
  0 <= p ->
  let P := padded_digits u p in
  let n := (length P - Z.to_nat p)%nat in
  let amount_text :=
    sign_text u ++ firstn n P ++ (if 0 <? p then "."%chr :: skipn n P else []) in
  ~ In " "%chr amount_text
  /\ JS.replace_first "." amount_text = sign_text u ++ P
  /\ Z.of_nat (length (nth 1 (JS.split "." amount_text) [])) = p.
Proof.
  intros Hp P n amount_text.
  destruct (padded_digits_facts u p Hp) as (Hdig & Hlen & _ & _). fold P in Hdig, Hlen.
  assert (HP : firstn n P ++ skipn n P = P) by apply firstn_skipn.
  assert (Hdf : forallb is_digit (firstn n P) = true /\ forallb is_digit (skipn n P) = true).
  { rewrite <- HP, forallb_app in Hdig. now apply andb_true_iff in Hdig. }
  destruct Hdf as [Hdf Hds].
  assert (Hskip : length (skipn n P) = Z.to_nat p)
    by (rewrite length_skipn; subst n; lia).
  assert (Hhead : forall c, c <> "-"%chr -> is_digit c = false ->
                            ~ In c (sign_text u ++ firstn n P)).
  { intros c H1 H2. apply In_app_not;
      [now apply sign_text_not_In | now apply digits_not_In]. }
  subst amount_text. rewrite app_assoc.
  destruct (Z.ltb_spec 0 p) as [Hpos | Hzero].
  - split; [| split].
    + apply In_app_not; [apply Hhead; [discriminate | reflexivity] |].
      intros [H | H]; [discriminate H |].
      revert H. now apply digits_not_In.
    + rewrite replace_first_app by (apply Hhead; [discriminate | reflexivity]).
      now rewrite <- app_assoc, HP.
    + rewrite split_app_sep by (apply Hhead; [discriminate | reflexivity]).
      rewrite split_no_sep by (now apply digits_not_In).
      cbn [nth]. lia.
  - rewrite app_nil_r. split; [| split].
    + apply Hhead; [discriminate | reflexivity].
    + rewrite replace_first_no by (apply Hhead; [discriminate | reflexivity]).
      replace n with (length P) by (subst n; lia). now rewrite firstn_all.
    + rewrite split_no_sep by (apply Hhead; [discriminate | reflexivity]).
      cbn [nth length]. lia.
Qed.

(** C5: for every signed 64-bit integer u and every valid Symbol s (one
    the constructor accepts), the text of [new Asset(u, s)] parses back via
    [Asset.from] to an Asset with the same units and the same symbol. *)
Theorem Asset_roundtrip (u : Int64) (s : Symbol.t) :
  - 2 ^ 63 <= u < 2 ^ 63 -> valid_symbol s ->
  Asset.from (Asset.OfString (Asset.toString (Asset.new u s))) = Ok (Asset.new u s).
Proof.
  intros Hu Hs.
  destruct (valid_symbol_facts s Hs) as (Hp & Hpat & Hparts).
  rewrite toString_pieces. cbn [Asset.units Asset.symbol].
  set (p := Symbol.precision s) in *.
  set (P := padded_digits u p). set (n := (length P - Z.to_nat p)%nat).
  destruct (amount_text_reads_back u p (proj1 Hp)) as (Hnsp & Hrepl & Hprec).
  fold P n in Hnsp, Hrepl, Hprec.
  set (amount_text :=
         sign_text u ++ firstn n P ++ (if 0 <? p then "."%chr :: skipn n P else [])) in *.
  replace (sign_text u ++ firstn n P ++ (if 0 <? p then "."%chr :: skipn n P else [])
             ++ " "%chr :: Symbol.name s)
    with (amount_text ++ " "%chr :: Symbol.name s)
    by (subst amount_text; now rewrite <- !app_assoc).
  unfold Asset.from.
  rewrite split_app_sep by exact Hnsp.
  rewrite split_no_sep.
  2:{ apply pattern_upper in Hpat as [_ Hup].
      apply forallb_not_In with Symbol.is_upper; [exact Hup | reflexivity]. }
  rewrite Hrepl, Hprec, Hparts. cbn [bind].
  subst P. rewrite Int64_from_string_signed by (lia || exact Hu). reflexivity.
Qed.

Lemma Asset_roundtrip_witness :
  - 2 ^ 63 <= -5 < 2 ^ 63 /\ valid_symbol (Symbol.mk 1397703940)
  /\ Asset.from (Asset.OfString (Asset.toString (Asset.new (-5) (Symbol.mk 1397703940))))
     = Ok (Asset.new (-5) (Symbol.mk 1397703940)).
Proof.
  assert (Hu : - 2 ^ 63 <= -5 < 2 ^ 63) by lia.
  assert (Hs : valid_symbol (Symbol.mk 1397703940)).
  { split; [cbn; lia | reflexivity]. }
  split; [exact Hu |]. split; [exact Hs |].
  exact (Asset_roundtrip (-5) (Symbol.mk 1397703940) Hu Hs).
Defined.

(** C6: [Asset.toString] renders the units as a decimal text: the sign is
    set apart and put back in front; the digits of [|units|] are padded
    with zeros on the left to at least [precision + 1] digits; the decimal
    point goes [precision] digits from the right, and there is none when
    the precision is 0; a space and the ticker name follow.  So the digits
    before the point read as [|units| / 10^precision] and those after it as
    [|units| mod 10^precision].  Units -12500 with ("EOS", 4) render
    "-1.2500 EOS"; units 100 with ("EOS", 0) render "100 EOS". *)
Theorem Asset_toString_format :
  (forall a : Asset.t,
     let u := Asset.units a in
     let p := Symbol.precision (Asset.symbol a) in
     exists int_part frac_part : jsstring,
       Asset.toString a
       = (if u <? 0 then ["-"%chr] else [])
           ++ int_part ++ (if 0 <? p then "."%chr :: frac_part else [])
           ++ " "%chr :: Symbol.name (Asset.symbol a)
       /\ int_part ++ frac_part
          = zeros (Z.to_nat (p + 1 - Z.of_nat (length (JS.decimal (Z.abs u)))))
              ++ JS.decimal (Z.abs u)
       /\ length (int_part ++ frac_part)
          = Nat.max (length (JS.decimal (Z.abs u))) (S (Z.to_nat p))
       /\ Z.of_nat (length frac_part) = p
       /\ (1 <= length int_part)%nat
       /\ forallb is_digit (int_part ++ frac_part) = true
       /\ JS.parse_digits int_part 0 = Some (Z.abs u / 10 ^ p)
       /\ JS.parse_digits frac_part 0 = Some (Z.abs u mod 10 ^ p))
  /\ (exists s, Symbol.fromParts "EOS" (JS.Num 4) = Ok s
                /\ Asset.toString (Asset.new (-12500) s) = "-1.2500 EOS")
  /\ (exists s, Symbol.fromParts "EOS" (JS.Num 0) = Ok s
                /\ Asset.toString (Asset.new 100 s) = "100 EOS").
Proof.
  split; [| split; eexists; split; reflexivity].
  intros a u p.
  assert (Hp : 0 <= p).
  { subst p. unfold Symbol.precision. apply toSymbolPrecision_byte. }
  pose proof (toString_pieces a) as Hpieces. cbn zeta in Hpieces. fold u p in Hpieces.
  destruct (padded_digits_facts u p Hp) as (Hdig & Hlt & Hlen & Hparse).
  cbn zeta in Hdig, Hlt, Hlen, Hparse.
  set (P := padded_digits u p) in *. set (n := (length P - Z.to_nat p)%nat) in *.
  assert (HP : firstn n P ++ skipn n P = P) by apply firstn_skipn.
  assert (Hfrac : length (skipn n P) = Z.to_nat p)
    by (rewrite length_skipn; subst n; lia).
  exists (firstn n P), (skipn n P).
  rewrite HP.
  split; [exact Hpieces |]. split; [reflexivity |]. split; [exact Hlen |].
  split; [lia |]. split; [rewrite length_firstn; subst n; lia |].
  split; [exact Hdig |].
  assert (Hsplit : forallb is_digit (firstn n P) = true
                   /\ forallb is_digit (skipn n P) = true).
  { rewrite <- HP, forallb_app in Hdig. now apply andb_true_iff in Hdig. }
  destruct Hsplit as [Hd1 Hd2].
  rewrite <- HP in Hparse.
  destruct (parse_digits_split _ _ _ Hd1 Hd2 Hparse) as [H1 H2].
  rewrite Hfrac, Z2Nat.id in H1, H2 by exact Hp. auto.
Qed.

Lemma amount_reads_back negative ip fp dotted :
  forallb is_digit ip = true -> forallb is_digit fp = true ->
  (dotted = false -> fp = []) ->
  let amt := amount_text negative ip fp dotted in
  ~ In " "%chr amt
  /\ JS.replace_first "." amt = (if negative then ["-"%chr] else []) ++ ip ++ fp
  /\ length (nth 1 (JS.split "." amt) []) = length fp.
Proof.
  intros Hip Hfp Hdot amt. subst amt. unfold amount_text.
  set (sgn := if negative then ["-"%chr] else []).
  assert (Hhead : forall c, c <> "-"%chr -> is_digit c = false -> ~ In c (sgn ++ ip)).
  { intros c H1 H2. apply In_app_not; [| now apply digits_not_In].
    subst sgn. destruct negative; cbn [In]; intuition congruence. }
  rewrite app_assoc.
  destruct dotted.
  - split; [| split].
    + apply In_app_not; [apply Hhead; [discriminate | reflexivity] |].
      intros [H | H]; [discriminate H |]. revert H. now apply digits_not_In.
    + rewrite replace_first_app by (apply Hhead; [discriminate | reflexivity]).
      now rewrite <- app_assoc.
    + rewrite split_app_sep by (apply Hhead; [discriminate | reflexivity]).
      rewrite split_no_sep by (now apply digits_not_In). reflexivity.
  - rewrite (Hdot eq_refl), !app_nil_r. split; [| split].
    + apply Hhead; [discriminate | reflexivity].
    + apply replace_first_no. apply Hhead; [discriminate | reflexivity].
    + rewrite split_no_sep by (apply Hhead; [discriminate | reflexivity]). reflexivity.
Qed.

Lemma Int64_from_string_digits negative digits v :
  forallb is_digit digits = true -> digits <> [] ->
  JS.parse_digits digits 0 = Some v ->
  - 2 ^ 63 <= signed negative v < 2 ^ 63 ->
  Int64_from_string ((if negative then ["-"%chr] else []) ++ digits)
  = Ok (signed negative v).
Proof.
  intros Hd Hne Hv Hr. unfold Int64_from_string.
  destruct digits as [| c r]; [congruence |].
  destruct negative; cbn [app signed] in *.
  - rewrite char_eqb_refl, Hv. cbn [option_map].
    destruct (Z.leb_spec (- 2 ^ 63) (- v)); [| lia].
    destruct (Z.ltb_spec (- v) (2 ^ 63)); [reflexivity | lia].
  - cbn [forallb] in Hd. apply andb_true_iff in Hd as [Hc _].
    rewrite (is_digit_not_minus c Hc), Hv.
    destruct (Z.leb_spec (- 2 ^ 63) v); [| lia].
    destruct (Z.ltb_spec v (2 ^ 63)); [reflexivity | lia].
Qed.

(** C7 fails as stated: the precision is the number of characters after
    the point, digits or not.  In ".-5 EOS" one digit follows the point,
    and the Asset has precision 2 (and units -5). *)
Lemma Asset_from_counts_characters :
  Asset.from (Asset.OfString ".-5 EOS")
  = Ok (Asset.new (-5) (Symbol.mk 1397703938))
  /\ Symbol.precision (Symbol.mk 1397703938) = 2
  /\ length (filter is_digit (nth 1 (JS.split "." ".-5") [])) = 1%nat.
Proof. repeat split. Qed.

(** C7, amended: [Asset.from] on a string fails when the string does not
    split into exactly two parts at the spaces.  Otherwise the inferred
    precision is the number of characters between the first point of the
    amount part and its next point or end (0 when there is no point), the
    units are read from the amount part less its first point, and the
    Symbol is made from the ticker and that precision by
    [Symbol.fromParts].  For an amount of the form
    [<sign?><digits>[.<digits>]] with at most 18 digits after the point,
    a ticker matching [A-Z]{1,7} and a value of signed 64-bit range, the
    Asset has as precision the count of digits after the point and as
    units the digits with the point stripped, sign preserved.
    [Asset.from("1.50 EOS")] has precision 2 and units 150. *)
Theorem Asset_from_string_spec :
  (forall s : jsstring,
      length (JS.split " " s) <> 2%nat ->
      Asset.from (Asset.OfString s) = Err InvalidAssetString)
  /\ (forall amt ticker : jsstring,
        ~ In " "%chr amt -> ~ In " "%chr ticker ->
        Asset.from (Asset.OfString (amt ++ " "%chr :: ticker))
        = (symbol <-
             Symbol.fromParts ticker
               (JS.Num (Z.of_nat (length (nth 1 (JS.split "." amt) [])))) ;;
           units <- Int64_from_string (JS.replace_first "." amt) ;;
           Ok (Asset.new units symbol)))
  /\ (forall negative int_part frac_part dotted ticker v,
        forallb is_digit int_part = true -> forallb is_digit frac_part = true ->
        (dotted = false -> frac_part = []) ->
        int_part ++ frac_part <> [] ->
        (length frac_part <= 18)%nat ->
        Symbol.symbolNamePattern ticker = true ->
        JS.parse_digits (int_part ++ frac_part) 0 = Some v ->
        - 2 ^ 63 <= signed negative v < 2 ^ 63 ->
        exists a,
          Asset.from (Asset.OfString
                        (amount_text negative int_part frac_part dotted
                           ++ " "%chr :: ticker)) = Ok a
          /\ Symbol.precision (Asset.symbol a) = Z.of_nat (length frac_part)
          /\ Symbol.name (Asset.symbol a) = ticker
          /\ Asset.units a = signed negative v)
  /\ (exists a, Asset.from (Asset.OfString "1.50 EOS") = Ok a
                /\ Symbol.precision (Asset.symbol a) = 2
                /\ Int64_toString (Asset.units a) = "150").
Proof.
  assert (Hgen : forall amt ticker : jsstring,
        ~ In " "%chr amt -> ~ In " "%chr ticker ->
        Asset.from (Asset.OfString (amt ++ " "%chr :: ticker))
        = (symbol <-
             Symbol.fromParts ticker
               (JS.Num (Z.of_nat (length (nth 1 (JS.split "." amt) [])))) ;;
           units <- Int64_from_string (JS.replace_first "." amt) ;;
           Ok (Asset.new units symbol))).
  { intros amt ticker Ha Ht. unfold Asset.from.
    now rewrite split_app_sep, (split_no_sep _ ticker Ht) by exact Ha. }
  split; [| split; [exact Hgen | split]].
  - intros s Hlen. unfold Asset.from.
    destruct (JS.split " " s) as [| a [| b [| c l]]]; try reflexivity.
    cbn [length] in Hlen. congruence.
  - intros negative ip fp dotted ticker v Hip Hfp Hdot Hne Hlen Hpat Hv Hr.
    destruct (amount_reads_back negative ip fp dotted Hip Hfp Hdot) as (Hsp & Hrepl & Hcount).
    cbn zeta in Hsp, Hrepl, Hcount.
    assert (Htick : ~ In " "%chr ticker).
    { apply pattern_upper in Hpat as [_ Hup].
      apply forallb_not_In with Symbol.is_upper; [exact Hup | reflexivity]. }
    rewrite (Hgen _ _ Hsp Htick), Hrepl, Hcount.
    destruct (fromParts_valid ticker (Z.of_nat (length fp)) ltac:(lia) Hpat)
      as (Hok & Hname & Hprec & _).
    cbn zeta in Hok, Hname, Hprec. rewrite Hok. cbn [bind].
    rewrite (Int64_from_string_digits negative (ip ++ fp) v); try assumption.
    + eexists. split; [reflexivity |]. cbn [Asset.symbol Asset.units]. auto.
    + rewrite forallb_app, Hip, Hfp. reflexivity.
  - eexists. repeat split.
Qed.

Lemma Asset_from_string_spec_witness :
  exists a,
    Asset.from (Asset.OfString (amount_text true "1" "2500" true ++ " "%chr :: lit "EOS"))
    = Ok a
    /\ Symbol.precision (Asset.symbol a) = 4
    /\ Symbol.name (Asset.symbol a) = "EOS"
    /\ Asset.units a = -12500.
Proof.
  apply (proj1 (proj2 (proj2 Asset_from_string_spec))
           true (lit "1") (lit "2500") true (lit "EOS") 12500);
    try reflexivity; try discriminate; cbn; lia.
Defined.

(** C8: [equals] coerces its argument via [Asset.from] and is true exactly
    when both the packed symbol values and the units are equal; the Assets
    read from "1.0 EOS" and "1.00 EOS" (units 10 at precision 1, units 100
    at precision 2) are not equal. *)
Theorem Asset_equals_spec :
  (forall (self : Asset.t) (other : Asset.AssetType),
      Asset.equals self other = Ok true
      <-> exists o, Asset.from other = Ok o
                    /\ Symbol.value (Asset.symbol self) = Symbol.value (Asset.symbol o)
                    /\ Asset.units self = Asset.units o)
  /\ (forall (self : Asset.t) (other : Asset.AssetType) (e : error),
        Asset.equals self other = Err e <-> Asset.from other = Err e)
  /\ (exists a b,
        Asset.from (Asset.OfString "1.0 EOS") = Ok a
        /\ Asset.from (Asset.OfString "1.00 EOS") = Ok b
        /\ Symbol.name (Asset.symbol a) = Symbol.name (Asset.symbol b)
        /\ Asset.units a * 10 ^ Symbol.precision (Asset.symbol b)
           = Asset.units b * 10 ^ Symbol.precision (Asset.symbol a)
        /\ Symbol.precision (Asset.symbol a) <> Symbol.precision (Asset.symbol b)
        /\ Asset.equals a (Asset.OfString "1.00 EOS") = Ok false
        /\ Asset.equals a (Asset.OfAsset b) = Ok false
        /\ Asset.equals b (Asset.OfString "1.0 EOS") = Ok false).
Proof.
  split; [| split].
  - intros self other. unfold Asset.equals, Int_equals.
    destruct (Asset.from other) as [o | e]; cbn [bind].
    + split.
      * intros H. injection H as H. apply andb_true_iff in H as [H1 H2].
        apply Z.eqb_eq in H1, H2. eauto.
      * intros (o' & Ho & H1 & H2). injection Ho as <-.
        rewrite H1, H2, !Z.eqb_refl. reflexivity.
    + split; [discriminate | intros (o & Ho & _); discriminate].
  - intros self other e. unfold Asset.equals.
    destruct (Asset.from other) as [o | e']; cbn [bind]; split; congruence.
  - do 2 eexists. split; [reflexivity |]. split; [reflexivity |].
    repeat split. discriminate.
Qed.

(** ** Conversion from floating point *)

(** C1 does not hold of the code: the guard of [convertFloat] compares
    the signed product with 2^53, not its magnitude.  At precision 0 and
    input -2^53 the magnitude is 2^53, the precision-loss error is not
    raised, and the product goes on to the integer constructor; the
    same input to the setter of [Asset.value] does likewise.  For 2^53
    itself the error is raised.  In general the error is raised exactly
    when [2^53 <= 10^precision * float] as floating-point numbers. *)
Theorem convertFloat_guard_is_signed (Int64_from_number : float -> option Int64) :
  let s := Symbol.mk 1397703936 in
  let f := (-9007199254740992)%float in
  Symbol.precision s = 0
  /\ PrimFloat.leb two53 (PrimFloat.abs (PrimFloat.mul (Symbol.pow10 0) f)) = true
  /\ Symbol.convertFloat Int64_from_number s f
     = match Int64_from_number f with
       | Some u => Ok u
       | None => Err IntegerError
       end
  /\ Symbol.convertFloat Int64_from_number s f <> Err ConversionLoosesPrecision
  /\ Asset.set_value Int64_from_number (Asset.new 0 s) f
     <> Err ConversionLoosesPrecision
  /\ Symbol.convertFloat Int64_from_number s 9007199254740992%float
     = Err ConversionLoosesPrecision
  /\ (forall (s' : Symbol.t) (f' : float),
        Symbol.convertFloat Int64_from_number s' f' = Err ConversionLoosesPrecision
        <-> PrimFloat.leb two53 (PrimFloat.mul (Symbol.pow10 (Symbol.precision s')) f')
            = true).
Proof.
  intros s f.
  assert (E : Symbol.convertFloat Int64_from_number s f
              = match Int64_from_number f with
                | Some u => Ok u
                | None => Err IntegerError
                end) by reflexivity.
  split; [reflexivity |]. split; [reflexivity |]. split; [exact E |].
  split; [rewrite E; destruct (Int64_from_number f); discriminate |].
  split.
  { unfold Asset.set_value. cbn [Asset.symbol]. rewrite E.
    destruct (Int64_from_number f); cbn [bind]; discriminate. }
  split; [reflexivity |].
  intros s' f'. unfold Symbol.convertFloat. fold two53.
  destruct (PrimFloat.leb two53 _).
  - split; intros _; reflexivity.
  - split; [| intros H; discriminate H].
    clear E. destruct (Int64_from_number _); intros H; discriminate H.
Qed.

(** ** The [code] getter over the store *)

Lemma set_nth_length j x l : length (BN.set_nth j x l) = length l.
Proof.
  revert j. induction l as [| y l IH]; intros [| j]; cbn [BN.set_nth length]; auto.
Qed.

Lemma nth_set_nth_same j x l d : (j < length l)%nat -> nth j (BN.set_nth j x l) d = x.
Proof.
  revert j. induction l as [| y l IH]; intros [| j] H; cbn [length] in H;
    cbn [BN.set_nth nth]; try lia; try reflexivity.
  apply IH. lia.
Qed.

Lemma nth_set_nth_other i j x l d : i <> j -> nth i (BN.set_nth j x l) d = nth i l d.
Proof.
  revert i j. induction l as [| y l IH]; intros [| i] [| j] H;
    cbn [BN.set_nth nth]; try reflexivity; try congruence.
  apply IH. congruence.
Qed.

(** Running the getter: a fresh object holds the shifted value, and no
    object that existed before is touched. *)
Lemma Heap_code_run (self : Heap.Symbol) (h : Heap.store) :
  Heap.allocated (Heap.UInt64_value (Heap.Symbol_value self)) h ->
  exists c h',
    Heap.code self h = (c, h')
    /\ Heap.UInt64_value (Heap.SymbolCode_value c) = length h
    /\ Heap.code_raw c h' = Z.shiftr (Heap.raw self h) 8
    /\ (forall r, Heap.allocated r h ->
                  Heap.allocated r h' /\ Heap.read r h' = Heap.read r h).
Proof.
  intros Hal. unfold Heap.allocated in Hal.
  unfold Heap.code, Heap.bind, Heap.clone, Heap.iushrn, Heap.ret.
  do 2 eexists. split; [reflexivity |].
  cbn [Heap.SymbolCode_value Heap.UInt64_from Heap.UInt64_value].
  unfold Heap.code_raw, Heap.raw, Heap.read, Heap.allocated.
  cbn [Heap.SymbolCode_value Heap.UInt64_value].
  split; [reflexivity |]. split.
  - rewrite nth_set_nth_same by (rewrite length_app; cbn [length]; lia).
    rewrite app_nth2, Nat.sub_diag by lia. reflexivity.
  - intros r Hr. rewrite set_nth_length, length_app. cbn [length].
    split; [lia |].
    rewrite nth_set_nth_other by lia. now rewrite app_nth1 by lia.
Qed.

(** C10: the [code] getter of a Symbol returns a SymbolCode whose value
    is the Symbol's value shifted right by 8 bits, held by a [BN] of its
    own (the shift is made on a clone); the Symbol's stored value and every
    other object of the store are as before, so its precision and name read
    the same and a second read of [code] gives the same value, leaving
    the first SymbolCode as it was.  [Symbol.fromParts("EOS", 4).code]
    reads "EOS". *)
Theorem Symbol_code_frame (self : Heap.Symbol) (h : Heap.store) :
  Heap.allocated (Heap.UInt64_value (Heap.Symbol_value self)) h ->
  exists c h',
    Heap.code self h = (c, h')
    /\ Heap.code_raw c h' = Z.shiftr (Heap.raw self h) 8
    /\ SymbolCode.value (Symbol.code (Symbol.mk (Heap.raw self h))) = Heap.code_raw c h'
    /\ Heap.raw self h' = Heap.raw self h
    /\ Heap.SymbolCode_value c <> Heap.Symbol_value self
    /\ (forall r, Heap.allocated r h -> Heap.read r h' = Heap.read r h)
    /\ Heap.precision self h' = Heap.precision self h
    /\ Heap.name self h' = Heap.name self h
    /\ (exists c2 h'',
          Heap.code self h' = (c2, h'')
          /\ Heap.code_raw c2 h'' = Heap.code_raw c h'
          /\ Heap.code_raw c h'' = Heap.code_raw c h'
          /\ Heap.raw self h'' = Heap.raw self h)
    /\ (exists s, Symbol.fromParts "EOS" (JS.Num 4) = Ok s
                  /\ SymbolCode.toString (Symbol.code s) = "EOS").
Proof.
  intros Hal.
  destruct (Heap_code_run self h Hal) as (c & h' & Hrun & Hfresh & Hval & Hframe).
  assert (Hraw : Heap.raw self h' = Heap.raw self h) by (apply Hframe; exact Hal).
  assert (Hal' : Heap.allocated (Heap.UInt64_value (Heap.Symbol_value self)) h')
    by (apply Hframe; exact Hal).
  assert (Hc : Heap.allocated (Heap.UInt64_value (Heap.SymbolCode_value c)) h').
  { unfold Heap.allocated. rewrite Hfresh.
    apply (f_equal snd) in Hrun. cbn [snd] in Hrun. rewrite <- Hrun.
    unfold Heap.code, Heap.bind, Heap.clone, Heap.iushrn, Heap.ret. cbn [snd].
    rewrite set_nth_length, length_app. cbn [length]. lia. }
  exists c, h'.
  split; [exact Hrun |]. split; [exact Hval |].
  split; [now rewrite Hval |]. split; [exact Hraw |].
  split.
  { intros E. apply (f_equal Heap.UInt64_value) in E.
    rewrite Hfresh in E. unfold Heap.allocated in Hal. lia. }
  split; [intros r Hr; now apply Hframe |].
  split; [unfold Heap.precision; now rewrite Hraw |].
  split; [unfold Heap.name; now rewrite Hraw |].
  split.
  - destruct (Heap_code_run self h' Hal') as (c2 & h'' & Hrun2 & _ & Hval2 & Hframe2).
    exists c2, h''. split; [exact Hrun2 |].
    split; [now rewrite Hval2, Hval, Hraw |].
    split; [unfold Heap.code_raw; now apply Hframe2 |].
    unfold Heap.raw in *. rewrite <- Hraw. now apply Hframe2.
  - eexists. split; reflexivity.
Qed.

Lemma Symbol_code_frame_witness :
  let self := {| Heap.Symbol_value := {| Heap.UInt64_value := 0%nat |} |} in
  Heap.allocated 0%nat [1397703940]
  /\ exists c h',
       Heap.code self [1397703940] = (c, h')
       /\ Heap.code_raw c h' = Z.shiftr (Heap.raw self [1397703940]) 8
       /\ Heap.raw self h' = Heap.raw self [1397703940].
Proof.
  intros self.
  assert (Hal : Heap.allocated 0%nat [1397703940]) by (unfold Heap.allocated; cbn; lia).
  split; [exact Hal |].
  destruct (Symbol_code_frame self [1397703940] Hal)
    as (c & h' & H1 & H2 & _ & H3 & _).
  exists c, h'. auto.
Defined.

(** * Further properties *)

(** ** More on bytes *)

Lemma le_bytes_zero n : BN.le_bytes n 0 = repeat 0 n.
Proof. induction n as [| n IH]; [reflexivity |]. cbn [BN.le_bytes repeat]. now f_equal. Qed.

Lemma le_bytes_le_sum n l :
  Forall is_byte l ->
  BN.le_bytes n (le_sum l) = firstn n l ++ repeat 0 (n - length l).
Proof.
  intros Hl. revert n. induction Hl as [| b l Hb Hl IH]; intros n.
  - cbn [le_sum firstn length]. rewrite firstn_nil, Nat.sub_0_r. apply le_bytes_zero.
  - destruct n as [| n]; [reflexivity |].
    cbn [BN.le_bytes le_sum firstn length app Nat.sub]. unfold is_byte in Hb.
    replace ((b + 256 * le_sum l) mod 256) with b
      by (apply Z.mod_unique with (le_sum l); lia).
    replace ((b + 256 * le_sum l) / 256) with (le_sum l)
      by (apply Z.div_unique with b; lia).
    now rewrite IH.
Qed.

Lemma le_sum_firstn n l :
  Forall is_byte l -> le_sum (firstn n l) = le_sum l mod 256 ^ Z.of_nat n.
Proof.
  intros Hl. revert n. induction Hl as [| b l Hb Hl IH]; intros n.
  - rewrite firstn_nil. cbn [le_sum]. now rewrite Z.mod_0_l by (apply Z.pow_nonzero; lia).
  - destruct n as [| n]; [cbn; now rewrite Z.mod_1_r |].
    cbn [firstn le_sum]. rewrite IH, Nat2Z.inj_succ, Z.pow_succ_r by lia.
    assert (Hp : 0 < 256 ^ Z.of_nat n) by (apply Z.pow_pos_nonneg; lia).
    unfold is_byte in Hb.
    rewrite (Z.rem_mul_r (b + 256 * le_sum l) 256) by lia.
    replace ((b + 256 * le_sum l) mod 256) with b
      by (apply Z.mod_unique with (le_sum l); lia).
    replace ((b + 256 * le_sum l) / 256) with (le_sum l)
      by (apply Z.div_unique with b; lia).
    reflexivity.
Qed.

(** ** The bits of a precision above its low byte *)

(** The loop from index [i] on reads the elements from [i] on. *)
Lemma initArray_le_loop_from count a b i j off words :
  (forall k, (i <= k)%nat -> JS.ToInt32 (JS.index a k) = JS.ToInt32 (JS.index b k)) ->
  BN.initArray_le_loop count a i j off words
  = BN.initArray_le_loop count b i j off words.
Proof.
  revert i j off words.
  induction count as [| count IH]; intros i j off words Hext; [reflexivity |].
  cbn [BN.initArray_le_loop]. cbv zeta.
  rewrite (Hext i), (Hext (i + 1)%nat), (Hext (i + 2)%nat) by lia.
  destruct (26 <=? off + 24); apply IH; intros k Hk; apply Hext; lia.
Qed.

(** Two arrays that agree from the third element on and whose first two
    elements make the same 16 low bits of the first word denote the same
    number. *)
Lemma of_array_le_first_two a0 a1 b0 b1 rest :
  JS.bitor (JS.ToInt32 a0) (JS.shl (JS.ToInt32 a1) 8)
  = JS.bitor (JS.ToInt32 b0) (JS.shl (JS.ToInt32 b1) 8) ->
  BN.of_array_le (a0 :: a1 :: rest) = BN.of_array_le (b0 :: b1 :: rest).
Proof.
  intros Hw. unfold BN.of_array_le. cbn [length].
  set (len := ((S (S (length rest)) + 2) / 3)%nat).
  assert (Hlen : (1 <= len)%nat).
  { subst len. apply Nat.div_le_lower_bound; lia. }
  destruct len as [| count]; [lia |].
  f_equal. f_equal.
  cbn [BN.initArray_le_loop]. cbv zeta.
  change (JS.index (a0 :: a1 :: rest) 0) with a0.
  change (JS.index (a0 :: a1 :: rest) (0 + 1)) with a1.
  change (JS.index (b0 :: b1 :: rest) 0) with b0.
  change (JS.index (b0 :: b1 :: rest) (0 + 1)) with b1.
  change (JS.index (a0 :: a1 :: rest) (0 + 2)) with (JS.index rest 0).
  change (JS.index (b0 :: b1 :: rest) (0 + 2)) with (JS.index rest 0).
  rewrite Hw.
  destruct (26 <=? 0 + 24); apply initArray_le_loop_from;
    intros [| [| k]] Hk; try lia; reflexivity.
Qed.

Lemma lor_split_byte p c :
  0 <= p < 2 ^ 16 -> 0 <= c < 2 ^ 16 ->
  JS.bitor (JS.wrap32 p) (JS.shl (JS.wrap32 c) 8)
  = JS.bitor (JS.wrap32 (p mod 256)) (JS.shl (JS.wrap32 (Z.lor c (p / 256))) 8).
Proof.
  intros Hp Hc.
  assert (Hq : 0 <= p / 256 < 256).
  { split; [apply Z.div_pos; lia | apply Z.div_lt_upper_bound; lia]. }
  pose proof (Z.mod_pos_bound p 256 ltac:(lia)) as Hr.
  assert (Hl : 0 <= Z.lor c (p / 256) < 2 ^ 16).
  { split; [apply Z.lor_nonneg; lia |].
    destruct (Z.eq_dec (Z.lor c (p / 256)) 0) as [-> | Hnz]; [lia |].
    apply Z.log2_lt_pow2; [pose proof (Z.lor_nonneg c (p / 256)); lia |].
    rewrite Z.log2_lor by lia.
    apply Z.max_lub_lt.
    - destruct (Z.eq_dec c 0) as [-> | ?]; [cbn; lia | apply Z.log2_lt_pow2; lia].
    - destruct (Z.eq_dec (p / 256) 0) as [-> | ?]; [cbn; lia | apply Z.log2_lt_pow2; lia]. }
  unfold JS.shl, JS.bitor. change (8 mod 32) with 8.
  rewrite (wrap32_small p), (wrap32_small c), (wrap32_small (p mod 256)),
    (wrap32_small (Z.lor c (p / 256))) by lia.
  rewrite (wrap32_small (Z.shiftl c 8))
    by (rewrite Z.shiftl_mul_pow2 by lia; lia).
  rewrite (wrap32_small (Z.shiftl (Z.lor c (p / 256)) 8))
    by (rewrite Z.shiftl_mul_pow2 by lia; lia).
  assert (Ep : p = Z.lor (p mod 256) (Z.shiftl (p / 256) 8)).
  { rewrite Z.shiftl_mul_pow2 by lia. rewrite lor_disjoint by lia.
    pose proof (Z.div_mod p 256). lia. }
  rewrite Ep at 1. rewrite Z.shiftl_lor, <- Z.lor_assoc.
  f_equal. apply Z.lor_comm.
Qed.

(** A precision of two bytes: the high byte goes into the first
    character of the ticker. *)
Lemma toRawSymbol_second_byte c rest p :
  0 <= p < 2 ^ 16 ->
  toRawSymbol (c :: rest) (JS.Num p)
  = toRawSymbol (JS.fromCharCode (Z.lor (JS.charCode c) (p / 256)) :: rest)
                (JS.Num (p mod 256)).
Proof.
  intros Hp. pose proof (charCode_range c) as Hc.
  assert (Hq : 0 <= p / 256 < 256).
  { split; [apply Z.div_pos; lia | apply Z.div_lt_upper_bound; lia]. }
  assert (Hl : 0 <= Z.lor (JS.charCode c) (p / 256) < 2 ^ 16).
  { split; [apply Z.lor_nonneg; lia |].
    destruct (Z.eq_dec (Z.lor (JS.charCode c) (p / 256)) 0) as [-> | Hnz]; [lia |].
    apply Z.log2_lt_pow2; [pose proof (Z.lor_nonneg (JS.charCode c) (p / 256)); lia |].
    rewrite Z.log2_lor by lia.
    apply Z.max_lub_lt.
    - destruct (Z.eq_dec (JS.charCode c) 0) as [-> | ?];
        [cbn; lia | apply Z.log2_lt_pow2; lia].
    - destruct (Z.eq_dec (p / 256) 0) as [-> | ?]; [cbn; lia | apply Z.log2_lt_pow2; lia]. }
  unfold toRawSymbol, UInt64_from.
  rewrite !toRawSymbolCode_firstn. cbn [firstn map].
  apply of_array_le_first_two. cbn [JS.ToInt32].
  rewrite charCode_fromCharCode by exact Hl.
  now apply lor_split_byte.
Qed.

(** X2: [Symbol.fromParts] checks the low byte of the precision it is
    given and does not drop the rest.  The precision error is raised
    exactly when [p mod 256] is above 18, and a Symbol that is made has
    precision [p mod 256].  The bits above the low byte are OR-ed into the
    ticker: for a precision below 2^16 the Symbol is the one made from the
    low byte and from the ticker whose first character has the high byte
    OR-ed into its code.  So with precision 260 the ticker BBB makes the
    Symbol 4,CBB, and the ticker Z, good with precision 4, fails with the
    charset error. *)
Theorem fromParts_precision_low_byte :
  (forall (name : jsstring) (p : Z),
      toSymbolPrecision (toRawSymbol name (JS.Num p)) = p mod 256
      /\ (Symbol.fromParts name (JS.Num p) = Err PrecisionTooLarge <-> 18 < p mod 256)
      /\ (forall s, Symbol.fromParts name (JS.Num p) = Ok s ->
                    Symbol.precision s = p mod 256))
  /\ (forall (c : char) (rest : jsstring) (p : Z),
        0 <= p < 2 ^ 16 ->
        Symbol.fromParts (c :: rest) (JS.Num p)
        = Symbol.fromParts
            (JS.fromCharCode (Z.lor (JS.charCode c) (p / 256)) :: rest)
            (JS.Num (p mod 256)))
  /\ (exists s, Symbol.fromParts "BBB" (JS.Num 260) = Ok s
                /\ Symbol.fromParts "CBB" (JS.Num 4) = Ok s
                /\ Symbol.name s = "CBB" /\ Symbol.precision s = 4)
  /\ Symbol.fromParts "Z" (JS.Num 260) = Err NameNotUppercase
  /\ (exists s, Symbol.fromParts "Z" (JS.Num 4) = Ok s)
  /\ Symbol.fromParts "BBB" (JS.Num 275) = Err PrecisionTooLarge.
Proof.
  split; [| split; [| split; [| split; [| split]]]].
  - intros name p.
    pose proof (toSymbolPrecision_toRawSymbol_any name p) as Hlow.
    split; [exact Hlow |].
    unfold Symbol.fromParts.
    destruct (Symbol_new_cases (toRawSymbol name (JS.Num p)))
      as [(Hp & E) | [(Hp & _ & E) | (Hp & _ & E)]];
      unfold Symbol.maxPrecision in Hp; rewrite Hlow in Hp; rewrite E.
    + split; [tauto | discriminate].
    + split; [split; [discriminate | lia] | discriminate].
    + split; [split; [discriminate | lia] |].
      intros s Hs. injection Hs as <-. exact Hlow.
  - intros c rest p Hp. unfold Symbol.fromParts.
    now rewrite toRawSymbol_second_byte.
  - eexists. repeat split.
  - reflexivity.
  - eexists. reflexivity.
  - reflexivity.
Qed.

Lemma fromParts_precision_low_byte_witness :
  Symbol.fromParts "Z" (JS.Num 260) = Symbol.fromParts "[" (JS.Num 4)
  /\ (Symbol.fromParts "Z" (JS.Num 275) = Err PrecisionTooLarge <-> 18 < 275 mod 256).
Proof.
  split.
  - apply (proj1 (proj2 fromParts_precision_low_byte) "Z"%chr [] 260). lia.
  - apply (proj1 fromParts_precision_low_byte "Z" 275).
Defined.

(** ** Symbol and SymbolCode: identity, layout, codes *)

Lemma valid_symbol_text s :
  valid_symbol s -> Symbol.from (Symbol.OfString (Symbol.toString s)) = Ok s.
Proof.
  intros Hs. destruct (valid_symbol_facts s Hs) as (Hp & Hpat & Hparts).
  unfold Symbol.toString. rewrite Symbol_from_string; [exact Hparts | exact Hp |].
  apply pattern_upper in Hpat as [_ Hu].
  apply forallb_not_In with Symbol.is_upper; [exact Hu | reflexivity].
Qed.

(** X1: a valid Symbol is determined by its name and precision, and
    [equals] gives the same answer whether the other Symbol comes as an
    object, as its packed integer or as its text "p,NAME": true exactly
    when name and precision agree. *)
Theorem Symbol_equals_spec (s t : Symbol.t) :
  valid_symbol s -> valid_symbol t ->
  (Symbol.equals s (Symbol.OfSymbol t) = Ok true
     <-> Symbol.name s = Symbol.name t /\ Symbol.precision s = Symbol.precision t)
  /\ (Symbol.name s = Symbol.name t /\ Symbol.precision s = Symbol.precision t
      <-> s = t)
  /\ Symbol.equals s (Symbol.OfString (Symbol.toString t))
     = Symbol.equals s (Symbol.OfSymbol t)
  /\ Symbol.equals s (Symbol.OfUInt64 (Symbol.value t))
     = Symbol.equals s (Symbol.OfSymbol t).
Proof.
  intros Hs Ht.
  assert (Hid : Symbol.name s = Symbol.name t /\ Symbol.precision s = Symbol.precision t
                <-> s = t).
  { split; [| intros ->; auto]. intros [Hn Hp].
    destruct (valid_symbol_facts s Hs) as (_ & _ & Es).
    destruct (valid_symbol_facts t Ht) as (_ & _ & Et).
    rewrite Hn, Hp, Et in Es. now injection Es. }
  assert (Heq : Symbol.equals s (Symbol.OfSymbol t) = Ok true <-> s = t).
  { unfold Symbol.equals, Symbol.from, Int_equals. cbn [bind]. split.
    - intros H. injection H as H. apply Z.eqb_eq in H.
      destruct s, t. cbn [Symbol.value] in H. now subst.
    - intros ->. now rewrite Z.eqb_refl. }
  split; [now rewrite Heq, Hid |]. split; [exact Hid |]. split.
  - unfold Symbol.equals. now rewrite (valid_symbol_text t Ht).
  - unfold Symbol.equals, Symbol.from. destruct Ht as [_ ->]. reflexivity.
Qed.

Lemma Symbol_equals_spec_witness :
  valid_symbol (Symbol.mk 1397703940) /\ valid_symbol (Symbol.mk 1397703938)
  /\ Symbol.equals (Symbol.mk 1397703940)
       (Symbol.OfString (Symbol.toString (Symbol.mk 1397703938)))
     = Symbol.equals (Symbol.mk 1397703940) (Symbol.OfSymbol (Symbol.mk 1397703938)).
Proof.
  assert (H4 : valid_symbol (Symbol.mk 1397703940)) by (split; [cbn; lia | reflexivity]).
  assert (H2 : valid_symbol (Symbol.mk 1397703938)) by (split; [cbn; lia | reflexivity]).
  split; [exact H4 |]. split; [exact H2 |].
  exact (proj1 (proj2 (proj2 (Symbol_equals_spec _ _ H4 H2)))).
Defined.

Lemma valid_name_codes name :
  Symbol.symbolNamePattern name = true ->
  toRawSymbolCode name = map JS.charCode name
  /\ strip_trailing is_zero (map JS.charCode name) = map JS.charCode name
  /\ map JS.charCode name <> [].
Proof.
  intros Hpat. pose proof (packed_ticker_valid name Hpat) as Hpk.
  apply pattern_upper in Hpat as [[H1 H7] _].
  unfold packed_ticker in Hpk. rewrite firstn_all2 in Hpk by lia.
  split; [rewrite toRawSymbolCode_firstn; now rewrite firstn_all2 by lia |].
  split.
  - rewrite (strip_map JS.charCode is_nul is_zero) by apply is_zero_charCode.
    now rewrite Hpk.
  - destruct name; [cbn [length] in H1; lia | discriminate].
Qed.

(** X3: on the wire a Symbol is 8 bytes: the precision, the ticker's
    character codes in order, and zeros up to 8. *)
Theorem Symbol_toABI_layout (name : jsstring) (p : Z) (encoder : ABIEncoder) :
  0 <= p <= 18 -> Symbol.symbolNamePattern name = true ->
  exists s,
    Symbol.fromParts name (JS.Num p) = Ok s
    /\ Symbol.toABI s encoder
       = encoder ++ p :: map JS.charCode name ++ repeat 0 (7 - length name).
Proof.
  intros Hp Hpat.
  destruct (fromParts_valid name p Hp Hpat) as (Hok & _).
  eexists. split; [exact Hok |].
  unfold Symbol.toABI, UInt64_toABI. cbn [Symbol.value]. f_equal.
  assert (Hb : is_byte p) by (unfold is_byte; lia).
  destruct (valid_name_codes name Hpat) as (Hcodes & _ & _).
  apply pattern_upper in Hpat as [[H1 H7] Hup].
  pose proof (upper_one_byte _ Hup) as Hob.
  rewrite toRawSymbol_le_sum, Hcodes
    by (first [exact Hb | now apply Forall_firstn_keeps]).
  rewrite le_bytes_le_sum by (constructor; [exact Hb | now apply one_byte_codes]).
  cbn [length]. rewrite length_map, firstn_all2 by (cbn [length]; rewrite length_map; lia).
  reflexivity.
Qed.

Lemma Symbol_toABI_layout_witness :
  0 <= 4 <= 18 /\ Symbol.symbolNamePattern "EOS" = true
  /\ exists s,
       Symbol.fromParts "EOS" (JS.Num 4) = Ok s
       /\ Symbol.toABI s []
          = [] ++ 4 :: map JS.charCode (lit "EOS") ++ repeat 0 (7 - length (lit "EOS")).
Proof.
  split; [lia |]. split; [reflexivity |].
  apply (Symbol_toABI_layout "EOS" 4 []); [lia | reflexivity].
Defined.

(** X4: the code of a valid Symbol is the code of its name: it reads
    back as the name, it is what [SymbolCode.from] makes of the name, and
    the Symbol's value is the code's value with the precision byte put
    below it. *)
Theorem Symbol_code_name (s : Symbol.t) :
  valid_symbol s ->
  SymbolCode.toString (Symbol.code s) = Symbol.name s
  /\ Symbol.code s = SymbolCode.from (SymbolCode.OfString (Symbol.name s))
  /\ SymbolCode.equals (Symbol.code s) (SymbolCode.OfString (Symbol.name s)) = true
  /\ Symbol.value s = 256 * SymbolCode.value (Symbol.code s) + Symbol.precision s.
Proof.
  intros Hs. pose proof (valid_symbol_range s Hs) as Hr.
  destruct (valid_symbol_facts s Hs) as (Hp & Hpat & _).
  destruct (valid_name_codes _ Hpat) as (Hcodes & Hstrip & Hne).
  assert (Hb : is_byte (Symbol.precision s)) by (unfold is_byte; lia).
  assert (Hob : Forall is_byte (map JS.charCode (Symbol.name s))).
  { apply one_byte_codes. apply toSymbolName_one_byte. }
  assert (Hv : Symbol.value s
               = le_sum (Symbol.precision s :: map JS.charCode (Symbol.name s))).
  { rewrite <- Hcodes, <- toRawSymbol_le_sum
      by (first [exact Hb | apply Forall_firstn_keeps, toSymbolName_one_byte]).
    symmetry. apply toRawSymbol_repack. exact Hr. }
  assert (Hcode : SymbolCode.value (Symbol.code s) = le_sum (map JS.charCode (Symbol.name s))).
  { unfold Symbol.code, UInt64_from. cbn [SymbolCode.value].
    rewrite Hv, Z.shiftr_div_pow2 by lia. cbn [le_sum]. change (2 ^ 8) with 256.
    unfold is_byte in Hb. symmetry. apply Z.div_unique with (Symbol.precision s); lia. }
  assert (Hfrom : Symbol.code s = SymbolCode.from (SymbolCode.OfString (Symbol.name s))).
  { destruct (Symbol.code s) as [c] eqn:E. cbn [SymbolCode.value] in Hcode. subst c.
    unfold SymbolCode.from, UInt64_from. rewrite Hcodes.
    rewrite of_array_le_bytes; [reflexivity | exact Hob |].
    rewrite length_map. apply pattern_upper in Hpat as [[_ H7] _]. lia. }
  split; [| split; [exact Hfrom | split]].
  - unfold SymbolCode.toString, charsToSymbolName. rewrite Hcode.
    rewrite toArray_be_le_sum by exact Hob. rewrite Hstrip.
    destruct (map JS.charCode (Symbol.name s)) eqn:E; [congruence |].
    rewrite <- E, map_rev, rev_involutive. apply map_fromCharCode_charCode.
  - unfold SymbolCode.equals, Int_equals. rewrite <- Hfrom. apply Z.eqb_refl.
  - rewrite Hcode, Hv. cbn [le_sum]. lia.
Qed.

Lemma Symbol_code_name_witness :
  valid_symbol (Symbol.mk 1397703940)
  /\ SymbolCode.toString (Symbol.code (Symbol.mk 1397703940))
     = Symbol.name (Symbol.mk 1397703940).
Proof.
  assert (H4 : valid_symbol (Symbol.mk 1397703940)) by (split; [cbn; lia | reflexivity]).
  split; [exact H4 |]. exact (proj1 (Symbol_code_name _ H4)).
Defined.

(** X5: a SymbolCode rebuilt from its own text keeps its 7 low bytes: the
    value of [SymbolCode.from(c.toString())] is the value of [c] modulo
    2^56.  The round trip is exact for every code below 2^56, zero bytes
    included (they travel as NUL characters), and drops the eighth byte
    of a larger one. *)
Theorem SymbolCode_from_toString (c : SymbolCode.t) :
  0 <= SymbolCode.value c < 2 ^ 64 ->
  SymbolCode.value (SymbolCode.from (SymbolCode.OfString (SymbolCode.toString c)))
  = SymbolCode.value c mod 2 ^ 56
  /\ (SymbolCode.value c < 2 ^ 56 ->
      SymbolCode.from (SymbolCode.OfString (SymbolCode.toString c)) = c).
Proof.
  intros Hv. set (v := SymbolCode.value c) in *.
  assert (Hval :
    SymbolCode.value (SymbolCode.from (SymbolCode.OfString (SymbolCode.toString c)))
    = v mod 2 ^ 56).
  { unfold SymbolCode.from, SymbolCode.toString, charsToSymbolName, UInt64_from.
    cbn [SymbolCode.value]. fold v.
    pose proof (be_bytes_Forall (Nat.max 1 (BN.byteLength v)) (Z.abs v)) as Hb.
    fold (BN.toArray_be v) in Hb. apply Forall_rev in Hb.
    rewrite toRawSymbolCode_firstn, <- map_rev, <- firstn_map.
    rewrite map_charCode_fromCharCode by exact Hb.
    rewrite of_array_le_bytes
      by (first [now apply Forall_firstn_keeps | rewrite length_firstn; lia]).
    rewrite le_sum_firstn by exact Hb.
    rewrite le_sum_rev_toArray_be by lia. reflexivity. }
  split; [exact Hval |].
  intros Hsmall. rewrite Z.mod_small in Hval by lia.
  destruct (SymbolCode.from _) as [w]. destruct c as [v']. cbn [SymbolCode.value] in *.
  subst v. now subst w.
Qed.

Lemma SymbolCode_from_toString_witness :
  0 <= SymbolCode.value (SymbolCode.new 0x420041) < 2 ^ 64
  /\ SymbolCode.value (SymbolCode.new 0x420041) < 2 ^ 56
  /\ SymbolCode.from (SymbolCode.OfString (SymbolCode.toString (SymbolCode.new 0x420041)))
     = SymbolCode.new 0x420041.
Proof.
  assert (H : 0 <= SymbolCode.value (SymbolCode.new 0x420041) < 2 ^ 64) by (cbn; lia).
  assert (H' : SymbolCode.value (SymbolCode.new 0x420041) < 2 ^ 56) by (cbn; lia).
  split; [exact H |]. split; [exact H' |].
  exact (proj2 (SymbolCode_from_toString _ H) H').
Defined.

(** X6: [SymbolCode.fromABI] validates nothing: it fails only for want of
    8 bytes, and any 8 bytes make a SymbolCode, whose value they are
    (least significant byte first), the rest of the buffer being left.
    It reads back what [toABI] writes. *)
Theorem SymbolCode_codec (decoder : ABIDecoder) :
  Forall is_byte decoder ->
  ((length decoder < 8)%nat -> SymbolCode.fromABI decoder = Err DecodeUnderflow)
  /\ ((8 <= length decoder)%nat ->
      SymbolCode.fromABI decoder
      = Ok (SymbolCode.new (le_sum (firstn 8 decoder)), skipn 8 decoder)
      /\ SymbolCode.toABI (SymbolCode.new (le_sum (firstn 8 decoder))) []
         = firstn 8 decoder)
  /\ (forall c : SymbolCode.t,
        0 <= SymbolCode.value c < 2 ^ 64 ->
        SymbolCode.fromABI (SymbolCode.toABI c [] ++ decoder) = Ok (c, decoder)).
Proof.
  intros Hb. unfold SymbolCode.fromABI, SymbolCode.toABI.
  split; [| split].
  - intros Hlen. unfold UInt64_fromABI.
    destruct (Nat.ltb_spec (length decoder) 8); [reflexivity | lia].
  - intros Hlen. unfold UInt64_fromABI, UInt64_toABI, UInt64_from.
    destruct (Nat.ltb_spec (length decoder) 8); [lia |]. cbn [bind fst snd app].
    assert (Hf : Forall is_byte (firstn 8 decoder)) by now apply Forall_firstn_keeps.
    rewrite of_array_le_bytes by (first [exact Hf | rewrite length_firstn; lia]).
    split; [reflexivity |]. cbn [SymbolCode.value].
    rewrite (le_bytes_le_sum 8 _ Hf), length_firstn.
    replace (8 - Nat.min 8 (length decoder))%nat with O by lia.
    cbn [repeat]. rewrite app_nil_r. apply firstn_all2. rewrite length_firstn. lia.
  - intros [v] Hv. cbn [SymbolCode.value] in *.
    rewrite UInt64_codec by exact Hv. reflexivity.
Qed.

Lemma SymbolCode_codec_witness :
  Forall is_byte [69; 79; 83; 0; 0; 0; 0; 0; 7]
  /\ SymbolCode.fromABI [69; 79; 83; 0; 0; 0; 0; 0; 7]
     = Ok (SymbolCode.new (le_sum (firstn 8 [69; 79; 83; 0; 0; 0; 0; 0; 7])),
           skipn 8 [69; 79; 83; 0; 0; 0; 0; 0; 7]).
Proof.
  assert (H : Forall is_byte [69; 79; 83; 0; 0; 0; 0; 0; 7])
    by (repeat constructor; unfold is_byte; lia).
  split; [exact H |].
  apply (proj1 (proj2 (SymbolCode_codec _ H))). cbn [length]. lia.
Defined.

(** ** The binary codec of Asset *)

Lemma Int64_codec u rest :
  - 2 ^ 63 <= u < 2 ^ 63 ->
  Int64_fromABI (Int64_toABI u [] ++ rest) = Ok (u, rest).
Proof.
  intros Hu. unfold Int64_fromABI, Int64_toABI. cbn [app].
  set (raw := u mod 2 ^ 64).
  assert (Hraw : 0 <= raw < 2 ^ 64) by (apply Z.mod_pos_bound; lia).
  assert (Hlen : length (BN.le_bytes 8 raw) = 8%nat) by apply le_bytes_length.
  destruct (Nat.ltb_spec (length (BN.le_bytes 8 raw ++ rest)) 8) as [H | _].
  { rewrite length_app in H. lia. }
  rewrite firstn_app, skipn_app, Hlen.
  rewrite firstn_all2, skipn_all2 by lia.
  cbn [Nat.sub firstn skipn app]. rewrite app_nil_r.
  rewrite of_array_le_bytes by (first [apply le_bytes_Forall | lia]).
  rewrite le_sum_le_bytes by lia.
  change (256 ^ Z.of_nat 8) with (2 ^ 64). rewrite (Z.mod_small raw) by lia.
  f_equal. f_equal. subst raw.
  destruct (Z.ltb_spec (u mod 2 ^ 64) (2 ^ 63)) as [Hlt | Hge].
  - destruct (Z_lt_le_dec u 0) as [Hneg | Hpos].
    + assert (E : u mod 2 ^ 64 = u + 2 ^ 64)
        by (symmetry; apply Z.mod_unique with (-1); lia). lia.
    + apply Z.mod_small. lia.
  - destruct (Z_lt_le_dec u 0) as [Hneg | Hpos].
    + assert (E : u mod 2 ^ 64 = u + 2 ^ 64)
        by (symmetry; apply Z.mod_unique with (-1); lia). lia.
    + rewrite Z.mod_small in Hge by lia. lia.
Qed.

Lemma Int64_fromABI_bytes d :
  Forall is_byte d -> (8 <= length d)%nat ->
  exists u, Int64_fromABI d = Ok (u, skipn 8 d)
            /\ - 2 ^ 63 <= u < 2 ^ 63
            /\ Int64_toABI u [] = firstn 8 d.
Proof.
  intros Hb Hlen. unfold Int64_fromABI, Int64_toABI.
  destruct (Nat.ltb_spec (length d) 8); [lia |].
  assert (Hf : Forall is_byte (firstn 8 d)) by now apply Forall_firstn_keeps.
  assert (Hl8 : length (firstn 8 d) = 8%nat) by (rewrite length_firstn; lia).
  rewrite of_array_le_bytes by (first [exact Hf | lia]).
  pose proof (le_sum_bound _ Hf) as Hbound. rewrite Hl8 in Hbound.
  change (256 ^ Z.of_nat 8) with (2 ^ 64) in Hbound.
  set (raw := le_sum (firstn 8 d)) in *.
  exists (if raw <? 2 ^ 63 then raw else raw - 2 ^ 64). split; [reflexivity |].
  assert (Emod : (if raw <? 2 ^ 63 then raw else raw - 2 ^ 64) mod 2 ^ 64 = raw).
  { destruct (Z.ltb_spec raw (2 ^ 63)).
    - apply Z.mod_small. lia.
    - symmetry. apply Z.mod_unique with (-1); lia. }
  split; [destruct (Z.ltb_spec raw (2 ^ 63)); lia |].
  cbn [app]. rewrite Emod. subst raw.
  rewrite (le_bytes_le_sum 8 _ Hf), Hl8. cbn [Nat.sub repeat].
  rewrite app_nil_r. apply firstn_all2. lia.
Qed.

Lemma UInt64_fromABI_bytes d :
  Forall is_byte d -> (8 <= length d)%nat ->
  UInt64_fromABI d = Ok (le_sum (firstn 8 d), skipn 8 d)
  /\ 0 <= le_sum (firstn 8 d) < 2 ^ 64
  /\ UInt64_toABI (le_sum (firstn 8 d)) [] = firstn 8 d.
Proof.
  intros Hb Hlen. unfold UInt64_fromABI, UInt64_toABI, UInt64_from.
  destruct (Nat.ltb_spec (length d) 8); [lia |].
  assert (Hf : Forall is_byte (firstn 8 d)) by now apply Forall_firstn_keeps.
  assert (Hl8 : length (firstn 8 d) = 8%nat) by (rewrite length_firstn; lia).
  rewrite of_array_le_bytes by (first [exact Hf | lia]).
  split; [reflexivity |]. split.
  - pose proof (le_sum_bound _ Hf) as Hbound. rewrite Hl8 in Hbound. exact Hbound.
  - cbn [app]. rewrite (le_bytes_le_sum 8 _ Hf), Hl8. cbn [Nat.sub repeat].
    rewrite app_nil_r. apply firstn_all2. lia.
Qed.

Lemma firstn_two_words {A} (d : list A) :
  firstn 8 d ++ firstn 8 (skipn 8 d) = firstn 16 d.
Proof.
  rewrite firstn_skipn_comm. change (8 + 8)%nat with 16%nat.
  replace (firstn 8 d) with (firstn 8 (firstn 16 d))
    by (rewrite firstn_firstn; reflexivity).
  apply firstn_skipn.
Qed.

Lemma Asset_toABI_bytes a encoder :
  Asset_toABI a encoder
  = encoder ++ Int64_toABI (Asset.units a) []
      ++ UInt64_toABI (Symbol.value (Asset.symbol a)) [].
Proof.
  unfold Asset_toABI, Symbol.toABI, Int64_toABI, UInt64_toABI. cbn [app].
  now rewrite <- app_assoc.
Qed.

Lemma Asset_fromABI_toABI a rest :
  - 2 ^ 63 <= Asset.units a < 2 ^ 63 -> valid_symbol (Asset.symbol a) ->
  Asset_fromABI (Asset_toABI a [] ++ rest) = Ok (a, rest).
Proof.
  intros Hu Hs. pose proof (valid_symbol_range _ Hs) as Hr.
  rewrite Asset_toABI_bytes. cbn [app]. rewrite <- app_assoc.
  unfold Asset_fromABI. rewrite Int64_codec by exact Hu. cbn [bind fst snd].
  unfold Symbol.fromABI. rewrite UInt64_codec by exact Hr. cbn [bind fst snd].
  destruct Hs as [_ ->]. cbn [bind fst snd]. now destruct a.
Qed.

(** X7: an Asset is written as 16 bytes, the units and then the symbol,
    appended to what the encoder holds; [Asset.fromABI] reads them back
    as the same Asset and leaves the bytes that follow. *)
Theorem Asset_codec (a : Asset.t) (rest : list Z) :
  - 2 ^ 63 <= Asset.units a < 2 ^ 63 -> valid_symbol (Asset.symbol a) ->
  length (Asset_toABI a []) = 16%nat
  /\ (forall encoder, Asset_toABI a encoder = encoder ++ Asset_toABI a [])
  /\ Asset_toABI a []
     = Int64_toABI (Asset.units a) [] ++ Symbol.toABI (Asset.symbol a) []
  /\ Asset_fromABI (Asset_toABI a [] ++ rest) = Ok (a, rest).
Proof.
  intros Hu Hs. pose proof (valid_symbol_range _ Hs) as Hr.
  split; [| split; [| split]].
  - rewrite Asset_toABI_bytes. unfold Int64_toABI, UInt64_toABI. cbn [app].
    now rewrite length_app, !le_bytes_length.
  - intros encoder. now rewrite !Asset_toABI_bytes.
  - rewrite Asset_toABI_bytes. reflexivity.
  - now apply Asset_fromABI_toABI.
Qed.

Lemma Asset_codec_witness :
  - 2 ^ 63 <= Asset.units (Asset.new (-12500) (Symbol.mk 1397703940)) < 2 ^ 63
  /\ valid_symbol (Asset.symbol (Asset.new (-12500) (Symbol.mk 1397703940)))
  /\ Asset_fromABI (Asset_toABI (Asset.new (-12500) (Symbol.mk 1397703940)) [] ++ [1; 2])
     = Ok (Asset.new (-12500) (Symbol.mk 1397703940), [1; 2]).
Proof.
  assert (Hu : - 2 ^ 63 <= Asset.units (Asset.new (-12500) (Symbol.mk 1397703940)) < 2 ^ 63)
    by (cbn; lia).
  assert (Hs : valid_symbol (Asset.symbol (Asset.new (-12500) (Symbol.mk 1397703940))))
    by (split; [cbn; lia | reflexivity]).
  split; [exact Hu |]. split; [exact Hs |].
  exact (proj2 (proj2 (proj2 (Asset_codec _ [1; 2] Hu Hs)))).
Defined.

(** X8: [Asset.fromABI] on a buffer of bytes: with fewer than 16 bytes
    it fails for want of bytes; with 16 or more it takes exactly 16, and
    fails with the precision error when byte 8 (the symbol's precision)
    is above 18.  What it returns is always an Asset of signed 64-bit
    units and a valid Symbol, and writing that Asset gives the 16 bytes
    that were read. *)
Theorem Asset_fromABI_checks (decoder : ABIDecoder) :
  Forall is_byte decoder ->
  ((length decoder < 16)%nat -> Asset_fromABI decoder = Err DecodeUnderflow)
  /\ ((16 <= length decoder)%nat -> 18 < nth 8 decoder 0 ->
      Asset_fromABI decoder = Err PrecisionTooLarge)
  /\ (forall a rest,
        Asset_fromABI decoder = Ok (a, rest) ->
        rest = skipn 16 decoder
        /\ - 2 ^ 63 <= Asset.units a < 2 ^ 63
        /\ valid_symbol (Asset.symbol a)
        /\ Asset_toABI a [] = firstn 16 decoder).
Proof.
  intros Hb.
  destruct (Nat.lt_ge_cases (length decoder) 8) as [Hshort | H8].
  { assert (E : Asset_fromABI decoder = Err DecodeUnderflow).
    { unfold Asset_fromABI, Int64_fromABI.
      destruct (Nat.ltb_spec (length decoder) 8); [reflexivity | lia]. }
    rewrite E. split; [reflexivity |]. split; [intros; lia | discriminate]. }
  destruct (Int64_fromABI_bytes decoder Hb H8) as (u & Eu & Hu & Hubytes).
  unfold Asset_fromABI. rewrite Eu. cbn [bind fst snd].
  assert (Hb' : Forall is_byte (skipn 8 decoder)).
  { rewrite <- (firstn_skipn 8 decoder) in Hb. now apply Forall_app in Hb. }
  destruct (Nat.lt_ge_cases (length decoder) 16) as [Hmid | H16].
  { assert (E : Symbol.fromABI (skipn 8 decoder) = Err DecodeUnderflow).
    { unfold Symbol.fromABI, UInt64_fromABI.
      destruct (Nat.ltb_spec (length (skipn 8 decoder)) 8) as [_ | H];
        [reflexivity | rewrite length_skipn in H; lia]. }
    rewrite E. cbn [bind].
    split; [reflexivity |]. split; [intros; lia | discriminate]. }
  assert (H8' : (8 <= length (skipn 8 decoder))%nat) by (rewrite length_skipn; lia).
  destruct (UInt64_fromABI_bytes _ Hb' H8') as (Ev & Hv & Hvbytes).
  set (v := le_sum (firstn 8 (skipn 8 decoder))) in *.
  unfold Symbol.fromABI. rewrite Ev. cbn [bind fst snd].
  assert (Hprec : toSymbolPrecision v = nth 8 decoder 0).
  { subst v. rewrite <- (firstn_skipn 8 decoder) at 2.
    rewrite app_nth2 by (rewrite length_firstn; lia).
    rewrite length_firstn. replace (8 - Nat.min 8 (length decoder))%nat with O by lia.
    destruct (skipn 8 decoder) as [| b0 l]; [cbn [length] in H8'; lia |].
    apply Forall_cons_iff in Hb' as [Hb0 _].
    cbn [firstn nth]. now apply toSymbolPrecision_le_sum. }
  split; [intros; lia |].
  destruct (Symbol_new_cases v) as [(Hp & ->) | [(Hp & _ & ->) | (Hp & Hn & E)]];
    unfold Symbol.maxPrecision in Hp; rewrite Hprec in Hp; cbn [bind].
  - split; [reflexivity | discriminate].
  - split; [intros; lia | discriminate].
  - rewrite E. cbn [bind fst snd]. split; [intros; lia |].
    intros a rest H. injection H as <- <-. cbn [Asset.units Asset.symbol].
    split; [change (skipn 8 (skipn 8 decoder) = skipn 16 decoder); apply skipn_skipn |].
    split; [exact Hu |].
    split; [split; [cbn [Symbol.value]; lia | exact E] |].
    rewrite Asset_toABI_bytes. cbn [Asset.units Asset.symbol Symbol.value app].
    rewrite Hubytes, Hvbytes. apply firstn_two_words.
Qed.

Lemma Asset_fromABI_checks_witness :
  Forall is_byte [44; 207; 255; 255; 255; 255; 255; 255; 19; 69; 79; 83; 0; 0; 0; 0]
  /\ Asset_fromABI [44; 207; 255; 255; 255; 255; 255; 255; 19; 69; 79; 83; 0; 0; 0; 0]
     = Err PrecisionTooLarge.
Proof.
  assert (H : Forall is_byte
                [44; 207; 255; 255; 255; 255; 255; 255; 19; 69; 79; 83; 0; 0; 0; 0])
    by (repeat constructor; unfold is_byte; lia).
  split; [exact H |].
  apply (proj1 (proj2 (Asset_fromABI_checks _ H))); cbn; lia.
Defined.

(** ** Asset and its text *)

(** The text of an Asset of 64-bit units and valid Symbol reads back as
    the Asset. *)
Lemma Asset_from_toString u s :
  - 2 ^ 63 <= u < 2 ^ 63 -> valid_symbol s ->
  Asset.from (Asset.OfString (Asset.toString (Asset.new u s))) = Ok (Asset.new u s).
Proof.
  intros Hu Hs.
  destruct (valid_symbol_facts s Hs) as (Hp & Hpat & Hparts).
  rewrite toString_pieces. cbn [Asset.units Asset.symbol].
  set (p := Symbol.precision s) in *.
  destruct (amount_text_reads_back u p (proj1 Hp)) as (Hnsp & Hrepl & Hprec).
  cbn zeta in Hnsp, Hrepl, Hprec.
  set (P := padded_digits u p) in *. set (n := (length P - Z.to_nat p)%nat) in *.
  rewrite !app_assoc, <- (app_assoc (sign_text u)). unfold Asset.from.
  rewrite split_app_sep by exact Hnsp.
  rewrite split_no_sep.
  2:{ apply pattern_upper in Hpat as [_ Hup].
      apply forallb_not_In with Symbol.is_upper; [exact Hup | reflexivity]. }
  rewrite Hrepl, Hprec, Hparts. cbn [bind].
  subst P. rewrite Int64_from_string_signed by (lia || exact Hu). reflexivity.
Qed.

Lemma Int64_from_string_range s u :
  Int64_from_string s = Ok u -> - 2 ^ 63 <= u < 2 ^ 63.
Proof.
  unfold Int64_from_string.
  destruct (match s with
            | [] => None
            | c :: rest =>
                if JS.char_eqb c "-"
                then match rest with
                     | [] => None
                     | _ :: _ => option_map Z.opp (JS.parse_digits rest 0)
                     end
                else JS.parse_digits s 0
            end) as [z |]; [| discriminate].
  destruct (Z.leb_spec (- 2 ^ 63) z); cbn [andb]; [| discriminate].
  destruct (Z.ltb_spec z (2 ^ 63)); [| discriminate].
  intros Hres. injection Hres as <-. lia.
Qed.

Lemma fromParts_Ok_valid name precision s :
  Symbol.fromParts name precision = Ok s -> valid_symbol s.
Proof.
  unfold Symbol.fromParts. intros H.
  pose proof (Symbol_new_Ok _ _ H) as (-> & _).
  split; [| exact H]. cbn [Symbol.value]. unfold toRawSymbol, UInt64_from.
  apply of_array_le_nonneg.
Qed.

(** What [Asset.from] makes of a text that splits in two. *)
Lemma Asset_from_two_parts amt ticker :
  ~ In " "%chr amt -> ~ In " "%chr ticker ->
  Asset.from (Asset.OfString (amt ++ " "%chr :: ticker))
  = (symbol <-
       Symbol.fromParts ticker
         (JS.Num (Z.of_nat (length (nth 1 (JS.split "." amt) [])))) ;;
     units <- Int64_from_string (JS.replace_first "." amt) ;;
     Ok (Asset.new units symbol)).
Proof.
  intros Ha Ht. unfold Asset.from.
  now rewrite split_app_sep, (split_no_sep _ ticker Ht) by exact Ha.
Qed.

(** X9: the text identifies the Asset: two Assets of 64-bit units and
    valid Symbols with the same [toString()] are the same Asset. *)
Theorem Asset_toString_injective (a b : Asset.t) :
  - 2 ^ 63 <= Asset.units a < 2 ^ 63 -> valid_symbol (Asset.symbol a) ->
  - 2 ^ 63 <= Asset.units b < 2 ^ 63 -> valid_symbol (Asset.symbol b) ->
  Asset.toString a = Asset.toString b -> a = b.
Proof.
  intros Hua Hsa Hub Hsb E.
  pose proof (Asset_from_toString _ _ Hua Hsa) as Ha.
  pose proof (Asset_from_toString _ _ Hub Hsb) as Hb.
  destruct a as [ua sa], b as [ub sb]. cbn [Asset.units Asset.symbol] in *.
  rewrite E, Hb in Ha. injection Ha as -> ->. reflexivity.
Qed.

Lemma Asset_toString_injective_witness :
  let a := Asset.new 150 (Symbol.mk 1397703938) in
  - 2 ^ 63 <= Asset.units a < 2 ^ 63 /\ valid_symbol (Asset.symbol a)
  /\ (Asset.toString a = Asset.toString a -> a = a).
Proof.
  intros a.
  assert (Hu : - 2 ^ 63 <= Asset.units a < 2 ^ 63) by (cbn; lia).
  assert (Hs : valid_symbol (Asset.symbol a)) by (split; [cbn; lia | reflexivity]).
  split; [exact Hu |]. split; [exact Hs |].
  exact (Asset_toString_injective a a Hu Hs Hu Hs).
Defined.

(** X10: whatever [Asset.from] accepts, it returns an Asset of signed
    64-bit units and a valid Symbol, and the text of that Asset parses to
    the same Asset again: parsing a rendered Asset is the identity, and
    [toString] after [from] puts a text in its canonical form. *)
Theorem Asset_from_canonical (s : jsstring) (a : Asset.t) :
  Asset.from (Asset.OfString s) = Ok a ->
  - 2 ^ 63 <= Asset.units a < 2 ^ 63
  /\ valid_symbol (Asset.symbol a)
  /\ Asset.from (Asset.OfString (Asset.toString a)) = Ok a.
Proof.
  intros H. unfold Asset.from in H.
  destruct (JS.split " " s) as [| amt [| ticker [| ? ?]]]; try discriminate H.
  destruct (Symbol.fromParts ticker _) as [sym | e] eqn:Esym; [| discriminate H].
  cbn [bind] in H.
  destruct (Int64_from_string _) as [u | e] eqn:Eu; [| discriminate H].
  cbn [bind] in H. injection H as <-. cbn [Asset.units Asset.symbol].
  pose proof (Int64_from_string_range _ _ Eu) as Hu.
  pose proof (fromParts_Ok_valid _ _ _ Esym) as Hs.
  split; [exact Hu |]. split; [exact Hs |].
  now apply Asset_from_toString.
Qed.

Lemma Asset_from_canonical_witness :
  Asset.from (Asset.OfString "-01.50 EOS") = Ok (Asset.new (-150) (Symbol.mk 1397703938))
  /\ Asset.toString (Asset.new (-150) (Symbol.mk 1397703938)) = "-1.50 EOS"
  /\ Asset.from (Asset.OfString (Asset.toString (Asset.new (-150) (Symbol.mk 1397703938))))
     = Ok (Asset.new (-150) (Symbol.mk 1397703938)).
Proof.
  assert (H : Asset.from (Asset.OfString "-01.50 EOS")
              = Ok (Asset.new (-150) (Symbol.mk 1397703938))) by reflexivity.
  split; [exact H |]. split; [reflexivity |].
  exact (proj2 (proj2 (Asset_from_canonical _ _ H))).
Defined.

Lemma upper_not_nul s : forallb Symbol.is_upper s = true -> ~ In JS.nul s.
Proof.
  intros H Hin. rewrite forallb_forall in H. specialize (H _ Hin). discriminate H.
Qed.

(** X11: [Asset.from] makes the Symbol before it reads the amount.  For a
    text "AMOUNT TICKER" with n characters after the first point of the
    amount: when [n mod 256] is above 18 it fails with the precision
    error, whatever the amount and the ticker are; when n is at most 18
    and the ticker is empty, or one of its first 7 characters (one-byte
    characters other than NUL) is outside A-Z, it fails with the charset
    error, whatever the amount is; when n is at most 18 and the first 7
    characters of a non-empty ticker are all in A-Z, the amount decides:
    the result is the error of [Int64.from] or the Asset of the units read
    and of the Symbol of precision n named by those characters.  What
    follows the 7th character of the ticker is not looked at. *)
Theorem Asset_from_errors (amt ticker : jsstring) :
  ~ In " "%chr amt -> ~ In " "%chr ticker ->
  let n := Z.of_nat (length (nth 1 (JS.split "." amt) [])) in
  let text := Asset.OfString (amt ++ " "%chr :: ticker) in
  (18 < n mod 256 -> Asset.from text = Err PrecisionTooLarge)
  /\ (n <= 18 ->
      Forall one_byte (firstn 7 ticker) -> ~ In JS.nul (firstn 7 ticker) ->
      ticker = [] \/ (exists c, In c (firstn 7 ticker) /\ Symbol.is_upper c = false) ->
      Asset.from text = Err NameNotUppercase)
  /\ (n <= 18 -> ticker <> [] -> forallb Symbol.is_upper (firstn 7 ticker) = true ->
      exists symbol,
        Symbol.fromParts ticker (JS.Num n) = Ok symbol
        /\ Symbol.name symbol = firstn 7 ticker
        /\ Symbol.precision symbol = n
        /\ Asset.from text
           = (units <- Int64_from_string (JS.replace_first "." amt) ;;
              Ok (Asset.new units symbol))).
Proof.
  intros Ha Ht n text. subst text. rewrite (Asset_from_two_parts _ _ Ha Ht). fold n.
  assert (Hn0 : 0 <= n) by (subst n; lia).
  split; [| split].
  - intros Hn. unfold Symbol.fromParts.
    destruct (Symbol_new_cases (toRawSymbol ticker (JS.Num n)))
      as [(_ & ->) | [(Hp & _) | (Hp & _)]]; [reflexivity | |];
      unfold Symbol.maxPrecision in Hp;
      rewrite toSymbolPrecision_toRawSymbol_any in Hp; lia.
  - intros Hn H1 Hnul Hbad.
    destruct (fromParts_text_cases ticker n (conj Hn0 Hn) H1 Hnul) as [_ ->].
    destruct Hbad as [-> | Hex]; [reflexivity |].
    apply forallb_false_ex in Hex. now rewrite Hex, andb_false_r.
  - intros Hn Hne Hup.
    destruct (fromParts_text_cases ticker n (conj Hn0 Hn)
                (upper_one_byte _ Hup) (upper_not_nul _ Hup)) as [Hpacked Hcases].
    rewrite Hup in Hcases.
    destruct ticker as [| c0 rest]; [congruence |]. cbn [negb andb] in Hcases.
    eexists. split; [exact Hcases |].
    unfold Symbol.name, Symbol.precision. cbn [Symbol.value].
    rewrite toSymbolName_toRawSymbol, toSymbolPrecision_toRawSymbol, Hpacked
      by (first [now apply upper_one_byte | unfold is_byte; lia]).
    split; [reflexivity |]. split; [reflexivity |].
    rewrite Hcases. reflexivity.
Qed.

Lemma Asset_from_errors_witness :
  Asset.from (Asset.OfString (lit "x.y" ++ " "%chr :: lit "eos")) = Err NameNotUppercase
  /\ exists symbol,
       Symbol.name symbol = "ABCDEFG"
       /\ Asset.from (Asset.OfString (lit "1" ++ " "%chr :: lit "ABCDEFGH"))
          = Ok (Asset.new 1 symbol).
Proof.
  assert (H1 : ~ In " "%chr (lit "x.y")) by (cbn; intuition discriminate).
  assert (H2 : ~ In " "%chr (lit "eos")) by (cbn; intuition discriminate).
  assert (H3 : ~ In " "%chr (lit "1")) by (cbn; intuition discriminate).
  assert (H4 : ~ In " "%chr (lit "ABCDEFGH")) by (cbn; intuition discriminate).
  split.
  - apply (proj1 (proj2 (Asset_from_errors _ _ H1 H2))).
    + cbn; lia.
    + repeat constructor.
    + cbn; intuition discriminate.
    + right. exists "e"%chr. split; [cbn; tauto | reflexivity].
  - destruct (proj2 (proj2 (Asset_from_errors _ _ H3 H4))) as (symbol & _ & Hn & _ & E);
      [cbn; lia | discriminate | reflexivity |].
    exists symbol. split; [exact Hn | exact E].
Defined.

(** X12: [equals] on Assets is equality of the Assets: it is true exactly
    when the two are the same, it does not matter which one is the
    receiver, and passing the other Asset as its text gives the same
    answer as passing the object. *)
Theorem Asset_equals_text (a b : Asset.t) :
  - 2 ^ 63 <= Asset.units b < 2 ^ 63 -> valid_symbol (Asset.symbol b) ->
  Asset.equals a (Asset.OfString (Asset.toString b)) = Asset.equals a (Asset.OfAsset b)
  /\ (Asset.equals a (Asset.OfAsset b) = Ok true <-> a = b)
  /\ Asset.equals a (Asset.OfAsset b) = Asset.equals b (Asset.OfAsset a).
Proof.
  intros Hu Hs.
  split; [| split].
  - unfold Asset.equals. destruct b as [ub sb]. cbn [Asset.units Asset.symbol] in *.
    now rewrite (Asset_from_toString _ _ Hu Hs).
  - unfold Asset.equals, Asset.from, Int_equals. cbn [bind]. split.
    + intros H. injection H as H. apply andb_true_iff in H as [H1 H2].
      apply Z.eqb_eq in H1, H2.
      destruct a as [ua [va]], b as [ub [vb]].
      cbn [Asset.units Asset.symbol Symbol.value] in *. now subst.
    + intros ->. now rewrite !Z.eqb_refl.
  - unfold Asset.equals, Asset.from, Int_equals. cbn [bind].
    now rewrite (Z.eqb_sym (Symbol.value (Asset.symbol a))), (Z.eqb_sym (Asset.units a)).
Qed.

Lemma Asset_equals_text_witness :
  let b := Asset.new 150 (Symbol.mk 1397703938) in
  - 2 ^ 63 <= Asset.units b < 2 ^ 63 /\ valid_symbol (Asset.symbol b)
  /\ Asset.equals b (Asset.OfString (Asset.toString b)) = Asset.equals b (Asset.OfAsset b).
Proof.
  intros b.
  assert (Hu : - 2 ^ 63 <= Asset.units b < 2 ^ 63) by (cbn; lia).
  assert (Hs : valid_symbol (Asset.symbol b)) by (split; [cbn; lia | reflexivity]).
  split; [exact Hu |]. split; [exact Hs |].
  exact (proj1 (Asset_equals_text b b Hu Hs)).
Defined.

(** ** ExtendedAsset *)

(** X13: an ExtendedAsset is written as the 16 bytes of its quantity
    followed at once by the contract's own encoding, and, for a contract
    whose encoding is appended by [toABI] and read back by [fromABI],
    [ExtendedAsset.fromABI] reads the ExtendedAsset back and leaves the
    bytes that follow. *)
Theorem ExtendedAsset_codec (N : NameInterface) (e : ExtendedAsset.t N) (rest : list Z) :
  - 2 ^ 63 <= Asset.units (ExtendedAsset.quantity N e) < 2 ^ 63 ->
  valid_symbol (Asset.symbol (ExtendedAsset.quantity N e)) ->
  (forall encoder,
      Name_toABI N (ExtendedAsset.contract N e) encoder
      = encoder ++ Name_toABI N (ExtendedAsset.contract N e) []) ->
  (forall r,
      Name_fromABI N (Name_toABI N (ExtendedAsset.contract N e) [] ++ r)
      = Ok (ExtendedAsset.contract N e, r)) ->
  ExtendedAsset.toABI N e []
  = Asset_toABI (ExtendedAsset.quantity N e) []
      ++ Name_toABI N (ExtendedAsset.contract N e) []
  /\ firstn 16 (ExtendedAsset.toABI N e []) = Asset_toABI (ExtendedAsset.quantity N e) []
  /\ ExtendedAsset.fromABI N (ExtendedAsset.toABI N e [] ++ rest) = Ok (e, rest).
Proof.
  intros Hu Hs Happend Hread.
  assert (Hlay : ExtendedAsset.toABI N e []
                 = Asset_toABI (ExtendedAsset.quantity N e) []
                     ++ Name_toABI N (ExtendedAsset.contract N e) []).
  { unfold ExtendedAsset.toABI. cbv zeta. apply Happend. }
  assert (Hlen : length (Asset_toABI (ExtendedAsset.quantity N e) []) = 16%nat).
  { rewrite Asset_toABI_bytes. unfold Int64_toABI, UInt64_toABI. cbn [app].
    now rewrite length_app, !le_bytes_length. }
  split; [exact Hlay |]. split.
  - rewrite Hlay, firstn_app, Hlen, Nat.sub_diag, firstn_O, app_nil_r.
    apply firstn_all2. lia.
  - rewrite Hlay, <- app_assoc. unfold ExtendedAsset.fromABI.
    rewrite Asset_fromABI_toABI by assumption. cbn [bind fst snd].
    rewrite Hread. cbn [bind fst snd]. now destruct e.
Qed.

Lemma ExtendedAsset_codec_witness :
  let e := ExtendedAsset.new UInt64Name (Asset.new 150 (Symbol.mk 1397703938)) 5 in
  ExtendedAsset.fromABI UInt64Name (ExtendedAsset.toABI UInt64Name e [] ++ [9]) = Ok (e, [9]).
Proof.
  intros e.
  assert (Hu : - 2 ^ 63 <= Asset.units (ExtendedAsset.quantity UInt64Name e) < 2 ^ 63)
    by (cbn; lia).
  assert (Hs : valid_symbol (Asset.symbol (ExtendedAsset.quantity UInt64Name e)))
    by (split; [cbn; lia | reflexivity]).
  refine (proj2 (proj2 (ExtendedAsset_codec UInt64Name e [9] Hu Hs _ _))).
  - intros encoder. reflexivity.
  - intros r. apply (UInt64_codec 5 r). lia.
Defined.

(** X14: [ExtendedAsset.equals] compares the quantities first and looks
    at the contract only when they are equal: an argument whose quantity
    differs compares unequal whatever its contract is, also one that
    [Name.from] rejects and [ExtendedAsset.from] therefore refuses; a
    quantity that [Asset.from] rejects makes both fail with its error;
    with equal quantities the answer is the contract's. *)
Theorem ExtendedAsset_equals_contract (N : NameInterface) (self : ExtendedAsset.t N)
        (q : Asset.AssetType) (c : NameType N) :
  let other := ExtendedAsset.OfObject N q c in
  (forall e, Asset.from q = Err e ->
             ExtendedAsset.equals N self other = Err e
             /\ ExtendedAsset.from N other = Err e)
  /\ (Asset.equals (ExtendedAsset.quantity N self) q = Ok false ->
      ExtendedAsset.equals N self other = Ok false
      /\ forall e, Name_from N c = Err e -> ExtendedAsset.from N other = Err e)
  /\ (Asset.equals (ExtendedAsset.quantity N self) q = Ok true ->
      ExtendedAsset.equals N self other
      = Name_equals N (ExtendedAsset.contract N self) c)
  /\ (forall o : ExtendedAsset.t N,
        ExtendedAsset.equals N self (ExtendedAsset.OfExtendedAsset N o)
        = if Int_equals (Symbol.value (Asset.symbol (ExtendedAsset.quantity N self)))
                        (Symbol.value (Asset.symbol (ExtendedAsset.quantity N o)))
             && Int_equals (Asset.units (ExtendedAsset.quantity N self))
                           (Asset.units (ExtendedAsset.quantity N o))
          then Name_equals N (ExtendedAsset.contract N self)
                 (Name_as_type N (ExtendedAsset.contract N o))
          else Ok false).
Proof.
  intros other. subst other.
  unfold ExtendedAsset.equals, ExtendedAsset.from.
  cbn [ExtendedAsset.quantity_of ExtendedAsset.contract_of].
  split; [| split; [| split]].
  - intros e He. unfold Asset.equals. rewrite He. cbn [bind]. auto.
  - intros Hq. rewrite Hq. cbn [bind]. split; [reflexivity |].
    intros e He. unfold Asset.equals in Hq.
    destruct (Asset.from q) as [a | e']; [| discriminate Hq].
    cbn [bind]. now rewrite He.
  - intros Hq. rewrite Hq. reflexivity.
  - intros o. unfold Asset.equals, Asset.from. cbn [bind]. reflexivity.
Qed.

Lemma ExtendedAsset_equals_contract_witness :
  let self := ExtendedAsset.new UInt64Name (Asset.new 150 (Symbol.mk 1397703938)) 5 in
  ExtendedAsset.equals UInt64Name self
    (ExtendedAsset.OfObject UInt64Name (Asset.OfString "1.5 EOS") (-1)) = Ok false
  /\ ExtendedAsset.from UInt64Name
       (ExtendedAsset.OfObject UInt64Name (Asset.OfString "1.5 EOS") (-1))
     = Err IntegerError.
Proof.
  intros self.
  destruct (proj1 (proj2 (ExtendedAsset_equals_contract UInt64Name self
                            (Asset.OfString "1.5 EOS") (-1))) eq_refl) as [H1 H2].
  split; [exact H1 | apply H2; reflexivity].
Defined.

(** ** A precision text without digits *)

Lemma initArray_le_loop_ext count a b i j off words :
  (forall k, JS.ToInt32 (JS.index a k) = JS.ToInt32 (JS.index b k)) ->
  BN.initArray_le_loop count a i j off words
  = BN.initArray_le_loop count b i j off words.
Proof.
  intros Hext. revert i j off words.
  induction count as [| count IH]; intros i j off words; [reflexivity |].
  cbn [BN.initArray_le_loop]. cbv zeta. rewrite !Hext.
  destruct (26 <=? off + 24); apply IH.
Qed.

Lemma toRawSymbol_NaN name : toRawSymbol name JS.NaN = toRawSymbol name (JS.Num 0).
Proof.
  unfold toRawSymbol, UInt64_from, BN.of_array_le. cbn [length].
  f_equal. f_equal. apply initArray_le_loop_ext.
  intros [| k]; reflexivity.
Qed.

(** X15: [Symbol.from] does not check what [Number.parseInt] returns: a
    text "P,NAME" whose P does not start with a number ([parseInt] gives
    [NaN]) is taken with precision 0, as ["0,NAME"] is. *)
Theorem Symbol_from_NaN_precision (ptext name : jsstring) :
  ~ In ","%chr ptext -> ~ In ","%chr name -> JS.parseInt ptext = JS.NaN ->
  Symbol.from (Symbol.OfString (ptext ++ ","%chr :: name))
  = Symbol.fromParts name (JS.Num 0)
  /\ Symbol.from (Symbol.OfString (ptext ++ ","%chr :: name))
     = Symbol.from (Symbol.OfString ("0"%chr :: ","%chr :: name))
  /\ forall s, Symbol.from (Symbol.OfString (ptext ++ ","%chr :: name)) = Ok s ->
               Symbol.precision s = 0.
Proof.
  intros Hp Hn Hnan.
  assert (E : Symbol.from (Symbol.OfString (ptext ++ ","%chr :: name))
              = Symbol.fromParts name (JS.Num 0)).
  { unfold Symbol.from. rewrite split_app_sep, (split_no_sep _ name Hn) by exact Hp.
    rewrite Hnan. unfold Symbol.fromParts. now rewrite toRawSymbol_NaN. }
  split; [exact E |]. split.
  - rewrite E. symmetry.
    change ("0"%chr :: ","%chr :: name)
      with (JS.Number_toString (JS.Num 0) ++ ","%chr :: name).
    apply Symbol_from_string; [lia | exact Hn].
  - rewrite E. intros s Hs. unfold Symbol.fromParts in Hs.
    apply Symbol_new_Ok in Hs as (-> & _).
    unfold Symbol.precision. cbn [Symbol.value].
    apply toSymbolPrecision_toRawSymbol. unfold is_byte. lia.
Qed.

Lemma Symbol_from_NaN_precision_witness :
  ~ In ","%chr (lit "x") /\ ~ In ","%chr (lit "EOS") /\ JS.parseInt "x" = JS.NaN
  /\ Symbol.from (Symbol.OfString (lit "x" ++ ","%chr :: lit "EOS"))
     = Symbol.fromParts "EOS" (JS.Num 0).
Proof.
  assert (H1 : ~ In ","%chr (lit "x")) by (cbn; intuition discriminate).
  assert (H2 : ~ In ","%chr (lit "EOS")) by (cbn; intuition discriminate).
  assert (H3 : JS.parseInt "x" = JS.NaN) by reflexivity.
  split; [exact H1 |]. split; [exact H2 |]. split; [exact H3 |].
  exact (proj1 (Symbol_from_NaN_precision _ _ H1 H2 H3)).
Defined.
